(** * llir/llvm: local-ID assignment, function printing and constant lowering

    A shallow embedding of [ir/func.go] (package [ir]) and [asm/const.go]
    (package [asm]).

    Go objects reached through pointers ([*Param], [*Block], instructions,
    [*Func], [*constant.BlockAddress]) are addresses into explicit stores,
    so that two slots of a slice holding the same pointer denote the same
    object.  The part of an object that the embedded functions mutate lives
    in the store; the part they only read travels with the address. *)

From Stdlib Require Import ZArith Ascii String.
From stdpp Require Import base option list strings functions gmap pretty.

Set Warnings "-register-all".
Set Default Proof Using "Type".

Local Open Scope string_scope.
Local Open Scope list_scope.
Local Open Scope Z_scope.

(** ** Machine integers *)

(** Go's [int64]: the result of an arithmetic operation wraps around. *)
Definition wrap64 (z : Z) : Z := (z + 2 ^ 63) `mod` 2 ^ 64 - 2 ^ 63.

(** ** Identifiers *)

(** An address of a Go object. *)
Definition loc := positive.
Bind Scope positive_scope with loc.

(** Modelled from the spec: the declaration of [ir.GlobalIdent] is not
    among the sources.  A global has a name, stored without sigil, or an
    ID; [const.go] reads the field [GlobalName]. *)
Record GlobalIdent := mkGlobalIdent {
  GlobalName : string;
  GlobalID : Z;
}.

(** Modelled from the spec: the declaration of [ir.LocalIdent] is not
    among the sources.  A local has a name or is anonymous with an integer
    ID; [const.go] writes and reads the field [LocalName].  The struct is
    embedded by value in parameters, basic blocks and the instructions and
    terminators that produce a value. *)
Record LocalIdent := mkLocalIdent {
  LocalName : string;
  LocalID : Z;
}.

(** Modelled from the spec: the methods of [LocalIdent] are not among the
    sources.  [IsUnnamed] tells the anonymous locals, those without name,
    from the named ones. *)
Definition IsUnnamed (i : LocalIdent) : bool := bool_decide (LocalName i = "").

(** Modelled from the spec: [ID] returns the ID of the local. *)
Definition ID (i : LocalIdent) : Z := LocalID i.

(** The identifiers of all the local objects, by address. *)
Abbreviation store := (loc → LocalIdent).

(** Modelled from the spec: [SetID] writes the ID of the local, here of
    the object at [n], and keeps its name. *)
Definition SetID (σ : store) (n : loc) (id : Z) : store :=
  <[n := mkLocalIdent (LocalName (σ n)) id]> σ.

(** ** Types *)

(** Modelled from the spec: package [types] is not among the sources.  The
    closed set of type variants: integer, floating-point, pointer, array,
    vector, structure, function, void, token and label. *)
Inductive type :=
| VoidType
| FuncType (RetType : type) (Params : list type) (Variadic : bool)
| IntType (BitSize : N)
| FloatType (Kind : N)
| PointerType (ElemType : type)
| VectorType (Len : N) (ElemType : type)
| LabelType
| TokenType
| ArrayType (Len : N) (ElemType : type)
| StructType (Fields : list type).

(** Modelled from the spec: [t.Equal(types.Void)], structural equality
    with the void type. *)
Definition Equal_Void (t : type) : bool :=
  match t with VoidType => true | _ => false end.

(** ** Values of a function body *)

(** The dynamic type of a value stored in the [local] interface, as far as
    the type switch of [isVoidValue] tells them apart. *)
Inductive local_kind := KParam | KBlock | KInstCall | KTermInvoke | KOtherValue.

(** A value of interface type [local]: the object it points to, its dynamic
    type and the result of its [Type()] method. *)
Record local := mkLocal {
  kind : local_kind;
  self : loc;
  Typ : type;
}.

(** [*ir.Param]: the object and its type. *)
Record Param := mkParam {
  param_self : loc;
  param_Typ : type;
}.

(** [ir.Instruction]: call instructions, the other instructions that
    produce a value (both implement [local]) and the instructions that do
    not (store, fence). *)
Inductive Instruction :=
| InstCall (self : loc) (Typ : type)
| InstValue (self : loc) (Typ : type)
| InstNoValue.

(** [ir.Terminator]: invoke, the other terminators that produce a value
    (callbr, catchswitch) and those that do not (ret, br, switch, ...). *)
Inductive Terminator :=
| TermInvoke (self : loc) (Typ : type)
| TermValue (self : loc) (Typ : type)
| TermNoValue.

(** [*ir.Block] ([*ir.BasicBlock] in [const.go]): the object, [Insts] and
    [Term]; [Term] is a nil interface in a block that only carries a
    name. *)
Record Block := mkBlock {
  block_self : loc;
  Insts : list Instruction;
  Term : option Terminator;
}.

Definition local_of_param (p : Param) : local :=
  mkLocal KParam (param_self p) (param_Typ p).

Definition local_of_block (b : Block) : local :=
  mkLocal KBlock (block_self b) LabelType.

(** The type assertion [inst.(local)]. *)
Definition inst_local (inst : Instruction) : option local :=
  match inst with
  | InstCall n t => Some (mkLocal KInstCall n t)
  | InstValue n t => Some (mkLocal KOtherValue n t)
  | InstNoValue => None
  end.

(** The type assertion [block.Term.(local)]. *)
Definition term_local (term : option Terminator) : option local :=
  match term with
  | Some (TermInvoke n t) => Some (mkLocal KTermInvoke n t)
  | Some (TermValue n t) => Some (mkLocal KOtherValue n t)
  | Some TermNoValue | None => None
  end.

(** [isVoidValue]: a call instruction or invoke terminator of void type. *)
Definition isVoidValue (n : local) : bool :=
  match kind n with
  | KInstCall | KTermInvoke => Equal_Void (Typ n)
  | _ => false
  end.

(** ** Constants *)

(** Modelled from the spec: package [constant] is not among the sources.
    The closed set of constant variants.  A block address and a reference
    to a global are pointers to their objects; a constant expression is
    kept as the text of its node. *)
Inductive Constant :=
| ConstInt (BitSize : N) (X : Z)
| ConstFloat (Kind : N) (X : string)
| ConstNull (Typ : type)
| ConstNone
| ConstStruct (Typ : type) (Fields : list Constant)
| ConstArray (Typ : type) (Elems : list Constant)
| ConstCharArray (X : list Byte.byte)
| ConstVector (Typ : type) (Elems : list Constant)
| ConstZeroInitializer (Typ : type)
| ConstUndef (Typ : type)
| ConstBlockAddress (c : loc)
| ConstGlobal (v : loc)
| ConstExpr (e : string).

(** Modelled from the spec: package [constant] is not among the sources;
    [constant.True] and [constant.False] are the two constants of the
    integer type of bit width 1. *)
Definition constant_True : Constant := ConstInt 1 1.
Definition constant_False : Constant := ConstInt 1 0.

(** [constant.None], the one none-token constant. *)
Definition constant_None : Constant := ConstNone.

(** ** Errors *)

(** The shapes of AST constant the lowering checks against a type. *)
Inductive const_shape :=
| ShapeBool | ShapeInt | ShapeFloat | ShapeNull | ShapeStruct | ShapeArray
| ShapeVector.

(** An error value, one constructor for each [errors.Errorf] of the two
    files, holding the arguments of the format:
    - [ErrInvalidLocalID f want got]:
      "invalid local ID in function %q, expected %s, got %s"
      with [f.Ident()], [enc.Local(want)], [enc.Local(got)];
    - [ErrLocateGlobal name]: "unable to locate global identifier %q";
    - [ErrInvalidType c t]: "invalid type of boolean constant; expected
      *types.IntType, got %T" and its six siblings;
    - [ErrBoolBitSize n]: "invalid integer type bit size of boolean
      constant; expected 1, got %d";
    - [ErrLocateBlock blockName funcName]:
      "unable to locate basic block %q in function %q";
    - [ErrExternal msg]: an error made by a function outside the two
      files. *)
Inductive error :=
| ErrInvalidLocalID (f : GlobalIdent) (want got : Z)
| ErrLocateGlobal (name : string)
| ErrInvalidType (c : const_shape) (got : type)
| ErrBoolBitSize (got : N)
| ErrLocateBlock (blockName funcName : string)
| ErrExternal (msg : string).

(** [errors.WithStack] attaches a stack trace and keeps the error. *)
Definition WithStack (err : error) : error := err.

(** The conditions the specification names. *)
Inductive condition :=
| TypeMismatch | MalformedLiteral | UnresolvedSymbol
| DanglingBlockReference | InvalidLocalID.

(** The condition an error of the two files stands for. *)
Definition condition_of (err : error) : option condition :=
  match err with
  | ErrInvalidLocalID _ _ _ => Some InvalidLocalID
  | ErrLocateGlobal _ => Some UnresolvedSymbol
  | ErrInvalidType _ _ | ErrBoolBitSize _ => Some TypeMismatch
  | ErrLocateBlock _ _ => Some DanglingBlockReference
  | ErrExternal _ => None
  end.

(** ** Functions *)

(** [*types.FuncType], the fields the printer reads. *)
Record FuncSig := mkFuncSig {
  RetType : type;
  Variadic : bool;
}.

(** [*ir.ComdatDef]. *)
Record ComdatDef := mkComdatDef {
  Name : string;
  Kind : N;
}.

(** An attribute, metadata attachment or use-list order: a value of which
    the printer only calls [String()]. *)
Record Stringer := mkStringer { String_ : string }.

(** [ir.Func].  An enumeration is its underlying integer, zero being the
    constant named [...None] (the fields are documented as "zero value if
    not present"); a nil pointer or interface is [None]. *)
Record Func := mkFunc {
  FuncIdent : GlobalIdent;
  Sig : FuncSig;
  Params : list Param;
  Blocks : list Block;
  Linkage : N;
  Preemption : N;
  Visibility : N;
  DLLStorageClass : N;
  CallingConv : N;
  ReturnAttrs : list Stringer;
  UnnamedAddr : N;
  FuncAttrs : list Stringer;
  Section_ : string;
  Comdat : option ComdatDef;
  GC : string;
  Prefix : option Constant;
  Prologue : option Constant;
  Personality : option Constant;
  UseListOrders : list Stringer;
  Metadata : list Stringer;
}.

Definition LinkageNone : N := 0.
Definition PreemptionNone : N := 0.
Definition VisibilityNone : N := 0.
Definition DLLStorageClassNone : N := 0.
Definition CallingConvNone : N := 0.
Definition UnnamedAddrNone : N := 0.

(** *** Local-ID assignment *)

(** What the numbering pass reads and writes: the identifiers and the
    variable [id] captured by the closure [setName]. *)
Definition numbering : Type := store * Z.

(** A loop body or function that may return an error. *)
Definition step : Type := numbering → numbering * option error.

(** The closure [setName] of [AssignIDs]. *)
Definition setName (f : Func) (n : local) : step := λ '(σ, id),
  if IsUnnamed (σ (self n)) then
    if negb (ID (σ (self n)) =? 0) && negb (id =? ID (σ (self n))) then
      ((σ, id), Some (ErrInvalidLocalID (FuncIdent f) id (ID (σ (self n)))))
    else
      ((SetID σ (self n) id, wrap64 (id + 1)), None)
  else ((σ, id), None).

(** [if err := c; err != nil { return errors.WithStack(err) }]. *)
Definition check (c : step) : step := λ s,
  match c s with
  | (s', Some err) => (s', Some (WithStack err))
  | (s', None) => (s', None)
  end.

(** [c1] and then, unless it returned, [c2]. *)
Definition and_then (c1 c2 : step) : step := λ s,
  match c1 s with
  | (s', Some err) => (s', Some err)
  | (s', None) => c2 s'
  end.

(** [for _, x := range l { body }], left when the body returns. *)
Fixpoint range {A} (body : A → step) (l : list A) : step := λ s,
  match l with
  | [] => (s, None)
  | x :: l' => and_then (body x) (range body l') s
  end.

(** [continue]. *)
Definition continue : step := λ s, (s, None).

(** The body of the loop over [block.Insts]. *)
Definition inst_body (f : Func) (inst : Instruction) : step :=
  match inst_local inst with
  | None => continue
  | Some n => if isVoidValue n then continue else check (setName f n)
  end.

(** The end of the body of the loop over [f.Blocks]. *)
Definition term_body (f : Func) (term : option Terminator) : step :=
  match term_local term with
  | None => continue
  | Some n => if isVoidValue n then continue else check (setName f n)
  end.

(** The body of the loop over [f.Blocks]. *)
Definition block_body (f : Func) (block : Block) : step :=
  and_then (check (setName f (local_of_block block)))
    (and_then (range (inst_body f) (Insts block))
       (term_body f (Term block))).

(** [func (f *Func) AssignIDs() error].  The mutex makes the pass one
    step with respect to other goroutines. *)
Definition AssignIDs (f : Func) (σ : store) : store * option error :=
  if (length (Blocks f) =? 0)%nat then (σ, None)
  else
    let id := 0 in
    let '((σ', _), err) :=
      and_then (range (λ param, check (setName f (local_of_param param)))
                  (Params f))
        (range (block_body f) (Blocks f)) (σ, id) in
    (σ', err).

(** *** Printing *)

(** The [String] and [LLString] methods of the values a function is made
    of, and the helpers [quote] and [callingConvString]: none of them is in
    the two files.  What prints a local or reads one takes the identifiers
    it prints from the store. *)
Class Printer := {
  Linkage_String : N → string;
  Preemption_String : N → string;
  Visibility_String : N → string;
  DLLStorageClass_String : N → string;
  callingConvString : N → string;
  UnnamedAddr_String : N → string;
  Type_String : type → string;
  Ident : GlobalIdent → string;
  GlobalIdent_Name : GlobalIdent → string;
  Param_LLString : store → Param → string;
  Block_LLString : store → Block → string;
  quote : string → string;
  ComdatDef_String : ComdatDef → string;
  Constant_String : store → Constant → string;
}.

(** The line feed. *)
Definition LF : string := String "010"%char "".

(** The tabulation. *)
Definition TAB : string := String "009"%char "".

(** [fmt.Sprintf(format, arg)] for a format with one verb [%s]. *)
Fixpoint Sprintf (format arg : string) : string :=
  match format with
  | "" => ""
  | String "%" (String "s" rest) => arg +:+ rest
  | String c rest => String c (Sprintf rest arg)
  end.

(** [buf.WriteString(s)] on the contents of a [strings.Builder]. *)
Definition WriteString (buf s : string) : string := buf +:+ s.

(** [fmt.Fprintf(buf, format, arg)]. *)
Definition Fprintf (buf format arg : string) : string :=
  buf +:+ Sprintf format arg.

(** [for i, x := range l { buf = body i x buf }], from index [i]. *)
Fixpoint range_index {A} (body : nat → A → string → string) (i : nat)
    (l : list A) (buf : string) : string :=
  match l with
  | [] => buf
  | x :: l' => range_index body (S i) l' (body i x buf)
  end.

(** [headerString]. *)
Definition headerString `{Printer} (σ : store) (f : Func) : string :=
  let buf := "" in
  let buf := if negb (Preemption f =? PreemptionNone)%N
             then Fprintf buf " %s" (Preemption_String (Preemption f))
             else buf in
  let buf := if negb (Visibility f =? VisibilityNone)%N
             then Fprintf buf " %s" (Visibility_String (Visibility f))
             else buf in
  let buf := if negb (DLLStorageClass f =? DLLStorageClassNone)%N
             then Fprintf buf " %s" (DLLStorageClass_String (DLLStorageClass f))
             else buf in
  let buf := if negb (CallingConv f =? CallingConvNone)%N
             then Fprintf buf " %s" (callingConvString (CallingConv f))
             else buf in
  let buf := range_index (λ _ attr buf, Fprintf buf " %s" (String_ attr))
               0 (ReturnAttrs f) buf in
  let buf := Fprintf buf " %s" (Type_String (RetType (Sig f))) in
  let buf := Fprintf buf " %s(" (Ident (FuncIdent f)) in
  let buf := range_index (λ i param buf,
               let buf := if negb (i =? 0)%nat
                          then WriteString buf ", " else buf in
               WriteString buf (Param_LLString σ param))
               0 (Params f) buf in
  let buf := if Variadic (Sig f)
             then
               let buf := if (0 <? length (Params f))%nat
                          then WriteString buf ", " else buf in
               WriteString buf "..."
             else buf in
  let buf := WriteString buf ")" in
  let buf := if negb (UnnamedAddr f =? UnnamedAddrNone)%N
             then Fprintf buf " %s" (UnnamedAddr_String (UnnamedAddr f))
             else buf in
  let buf := range_index (λ _ attr buf, Fprintf buf " %s" (String_ attr))
               0 (FuncAttrs f) buf in
  let buf := if (0 <? String.length (Section_ f))%nat
             then Fprintf buf " section %s" (quote (Section_ f))
             else buf in
  let buf := match Comdat f with
             | Some comdat =>
                 if String.eqb (Name comdat) (GlobalIdent_Name (FuncIdent f))
                 then WriteString buf " comdat"
                 else Fprintf buf " %s" (ComdatDef_String comdat)
             | None => buf
             end in
  let buf := if (0 <? String.length (GC f))%nat
             then Fprintf buf " gc %s" (quote (GC f))
             else buf in
  let buf := match Prefix f with
             | Some c => Fprintf buf " prefix %s" (Constant_String σ c)
             | None => buf
             end in
  let buf := match Prologue f with
             | Some c => Fprintf buf " prologue %s" (Constant_String σ c)
             | None => buf
             end in
  let buf := match Personality f with
             | Some c => Fprintf buf " personality %s" (Constant_String σ c)
             | None => buf
             end in
  buf.

(** [bodyString]. *)
Definition bodyString `{Printer} (σ : store) (body : Func) : string :=
  let buf := "" in
  let buf := WriteString buf ("{" +:+ LF) in
  let buf := range_index (λ i block buf,
               let buf := if negb (i =? 0)%nat
                          then WriteString buf LF else buf in
               Fprintf buf ("%s" +:+ LF) (Block_LLString σ block))
               0 (Blocks body) buf in
  let buf := if (0 <? length (UseListOrders body))%nat
             then WriteString buf LF else buf in
  let buf := range_index (λ _ u buf,
               Fprintf buf (TAB +:+ "%s" +:+ LF) (String_ u))
               0 (UseListOrders body) buf in
  let buf := WriteString buf "}" in
  buf.

(** The value a [panic] is raised with: in [LLString],
    [fmt.Errorf("unable to assign IDs of function %q; %v", f.Ident(), err)]. *)
Inductive panic_value :=
| PanicAssignIDs (ident : string) (err : error).

(** How a call of a function without error result ends. *)
Inductive outcome (A : Type) :=
| Returns (a : A)
| Panics (v : panic_value).
Arguments Returns {A} a.
Arguments Panics {A} v.

(** [func (f *Func) LLString() string]. *)
Definition LLString `{Printer} (f : Func) (σ : store) : store * outcome string :=
  let buf := "" in
  if (length (Blocks f) =? 0)%nat then
    let buf := WriteString buf "declare" in
    let buf := range_index (λ _ md buf, Fprintf buf " %s" (String_ md))
                 0 (Metadata f) buf in
    let buf := if negb (Linkage f =? LinkageNone)%N
               then Fprintf buf " %s" (Linkage_String (Linkage f))
               else buf in
    let buf := WriteString buf (headerString σ f) in
    (σ, Returns buf)
  else
    match AssignIDs f σ with
    | (σ', Some err) => (σ', Panics (PanicAssignIDs (Ident (FuncIdent f)) err))
    | (σ', None) =>
        let buf := WriteString buf "define" in
        let buf := if negb (Linkage f =? LinkageNone)%N
                   then Fprintf buf " %s" (Linkage_String (Linkage f))
                   else buf in
        let buf := WriteString buf (headerString σ' f) in
        let buf := range_index (λ _ md buf, Fprintf buf " %s" (String_ md))
                     0 (Metadata f) buf in
        let buf := Fprintf buf " %s" (bodyString σ' f) in
        (σ', Returns buf)
    end.

(** ** Lowering of constants (package [asm]) *)

(** What a Go function returns as [(value, error)]. *)
Inductive result (A : Type) :=
| Ok (a : A)
| Err (err : error).
Arguments Ok {A} a.
Arguments Err {A} err.

(** [*constant.BlockAddress]: the function and the basic block. *)
Record BlockAddress := mkBlockAddress {
  BlockAddress_Func : loc;
  BlockAddress_Block : Block;
}.

(** The objects the lowering allocates, reads and writes. *)
Record heap := mkHeap {
  next : loc;
  idents : store;
  funcs : loc → Func;
  blockaddrs : loc → BlockAddress;
}.

(** The fields of [generator] the file uses: the globals by name and the
    block addresses to fix. *)
Record generator := mkGenerator {
  gs : gmap string Constant;
  todo : list loc;
}.

(** A node of the syntax tree whose structure the file does not look into
    is the text it spans. *)
Definition ast_Type := string.

(** [ast.Constant], the cases of the type switch of [irConstant], and
    [ast.TypeConst].  A node of another variant, for which [irConstant]
    panics, has no constructor. *)
Inductive ast_Constant :=
| ast_BoolConst (BoolLit : string)
| ast_IntConst (IntLit : string)
| ast_FloatConst (FloatLit : string)
| ast_NullConst
| ast_NoneConst
| ast_StructConst (Fields : list ast_TypeConst)
| ast_ArrayConst (Elems : list ast_TypeConst)
| ast_CharArrayConst (Val : string)
| ast_VectorConst (Elems : list ast_TypeConst)
| ast_ZeroInitializerConst
| ast_UndefConst
| ast_BlockAddressConst (Func Block : string)
| ast_GlobalIdent (text : string)
| ast_ConstantExpr (text : string)
with ast_TypeConst :=
| mk_ast_TypeConst (Typ : ast_Type) (Val : ast_Constant).

(** The functions of package [asm] and of package [constant] that the file
    calls and does not define. *)
Class Lowering := {
  irType : generator → ast_Type → result type;
  irConstantExpr :
    type → string → generator * heap → (generator * heap) * result Constant;
  function : generator → string → result loc;
  NewIntFromString : N → string → result Constant;
  NewFloatFromString : N → string → result Constant;
  boolLit : string → bool;
  stringLitBytes : string → list Byte.byte;
  asm_global : string → string;
  asm_local : string → string;
}.

(** A lowering function: it reads and writes the generator and the heap and
    returns a value or an error. *)
Definition lower (A : Type) : Type :=
  generator * heap → (generator * heap) * result A.

(** [irBoolConst]. *)
Definition irBoolConst `{Lowering} (t : type) (old : string) : lower Constant :=
  λ s,
  match t with
  | IntType BitSize =>
      if negb (BitSize =? 1)%N then (s, Err (ErrBoolBitSize BitSize))
      else
        let v := boolLit old in
        if v then (s, Ok constant_True) else (s, Ok constant_False)
  | _ => (s, Err (ErrInvalidType ShapeBool t))
  end.

(** [irIntConst]. *)
Definition irIntConst `{Lowering} (t : type) (old : string) : lower Constant :=
  λ s,
  match t with
  | IntType BitSize => (s, NewIntFromString BitSize old)
  | _ => (s, Err (ErrInvalidType ShapeInt t))
  end.

(** [irFloatConst]. *)
Definition irFloatConst `{Lowering} (t : type) (old : string) : lower Constant :=
  λ s,
  match t with
  | FloatType Kind => (s, NewFloatFromString Kind old)
  | _ => (s, Err (ErrInvalidType ShapeFloat t))
  end.

(** [irNullConst]. *)
Definition irNullConst (t : type) : lower Constant := λ s,
  match t with
  | PointerType _ => (s, Ok (ConstNull t))
  | _ => (s, Err (ErrInvalidType ShapeNull t))
  end.

(** [irNoneConst]. *)
Definition irNoneConst (t : type) : lower Constant := λ s,
  (s, Ok constant_None).

(** [irTypeConst], over the [irConstant] it calls. *)
Definition irTypeConst `{Lowering} (irConstant : type → ast_Constant → lower Constant)
    (old : ast_TypeConst) : lower Constant := λ s,
  match old with
  | mk_ast_TypeConst Typ Val =>
      match irType (fst s) Typ with
      | Err err => (s, Err (WithStack err))
      | Ok typ => irConstant typ Val s
      end
  end.

(** The loop of [irStructConst], [irArrayConst] and [irVectorConst]: lower
    each element and append it; return at the first error. *)
Definition lower_each {A} (lower_one : A → lower Constant) :
    list A → list Constant → lower (list Constant) :=
  fix go l acc s :=
    match l with
    | [] => (s, Ok acc)
    | e :: l' =>
        match lower_one e s with
        | (s', Err err) => (s', Err (WithStack err))
        | (s', Ok elem) => go l' (acc ++ [elem]) s'
        end
    end.

(** What follows the loop: [constant.NewStruct(typ, fields...)] and the
    like. *)
Definition build (c : list Constant → Constant)
    (r : (generator * heap) * result (list Constant)) :
    (generator * heap) * result Constant :=
  match r with
  | (s, Ok elems) => (s, Ok (c elems))
  | (s, Err err) => (s, Err err)
  end.

(** [irStructConst], over the [irConstant] it calls. *)
Definition irStructConst `{Lowering} (irConstant : type → ast_Constant → lower Constant)
    (t : type) (Fields : list ast_TypeConst) : lower Constant := λ s,
  match t with
  | StructType _ =>
      build (ConstStruct t) (lower_each (irTypeConst irConstant) Fields [] s)
  | _ => (s, Err (ErrInvalidType ShapeStruct t))
  end.

(** [irArrayConst], over the [irConstant] it calls. *)
Definition irArrayConst `{Lowering} (irConstant : type → ast_Constant → lower Constant)
    (t : type) (Elems : list ast_TypeConst) : lower Constant := λ s,
  match t with
  | ArrayType _ _ =>
      build (ConstArray t) (lower_each (irTypeConst irConstant) Elems [] s)
  | _ => (s, Err (ErrInvalidType ShapeArray t))
  end.

(** [irCharArrayConst]. *)
Definition irCharArrayConst `{Lowering} (t : type) (Val : string) : lower Constant :=
  λ s,
  let data := stringLitBytes Val in
  let expr := ConstCharArray data in
  (s, Ok expr).

(** [irVectorConst], over the [irConstant] it calls. *)
Definition irVectorConst `{Lowering} (irConstant : type → ast_Constant → lower Constant)
    (t : type) (Elems : list ast_TypeConst) : lower Constant := λ s,
  match t with
  | VectorType _ _ =>
      build (ConstVector t) (lower_each (irTypeConst irConstant) Elems [] s)
  | _ => (s, Err (ErrInvalidType ShapeVector t))
  end.

(** [irZeroInitializerConst]. *)
Definition irZeroInitializerConst (t : type) : lower Constant := λ s,
  (s, Ok (ConstZeroInitializer t)).

(** [irUndefConst]. *)
Definition irUndefConst (t : type) : lower Constant := λ s,
  (s, Ok (ConstUndef t)).

(** [&ir.BasicBlock{LocalName: name}]: a new block object without
    instructions or terminator. *)
Definition new_BasicBlock (name : string) (h : heap) : Block * heap :=
  (mkBlock (next h) [] None,
   mkHeap (Pos.succ (next h)) (<[next h := mkLocalIdent name 0]> (idents h))
     (funcs h) (blockaddrs h)).

(** [constant.NewBlockAddress(f, block)]: a new block-address object. *)
Definition NewBlockAddress (f : loc) (block : Block) (h : heap) : loc * heap :=
  (next h,
   mkHeap (Pos.succ (next h)) (idents h) (funcs h)
     (<[next h := mkBlockAddress f block]> (blockaddrs h))).

(** [irBlockAddressConst]; the result is the pointer [expr]. *)
Definition irBlockAddressConst `{Lowering} (t : type) (old_Func old_Block : string) :
    lower loc := λ '(gen, h),
  let funcName := asm_global old_Func in
  match function gen funcName with
  | Err err => ((gen, h), Err (WithStack err))
  | Ok f =>
      let blockName := asm_local old_Block in
      let '(block, h) := new_BasicBlock blockName h in
      let '(expr, h) := NewBlockAddress f block h in
      let gen := mkGenerator (gs gen) (todo gen ++ [expr]) in
      ((gen, h), Ok expr)
  end.

(** [irConstant]. *)
Fixpoint irConstant `{Lowering} (t : type) (old : ast_Constant) : lower Constant :=
  match old with
  | ast_BoolConst lit => irBoolConst t lit
  | ast_IntConst lit => irIntConst t lit
  | ast_FloatConst lit => irFloatConst t lit
  | ast_NullConst => irNullConst t
  | ast_NoneConst => irNoneConst t
  | ast_StructConst Fields => irStructConst irConstant t Fields
  | ast_ArrayConst Elems => irArrayConst irConstant t Elems
  | ast_CharArrayConst Val => irCharArrayConst t Val
  | ast_VectorConst Elems => irVectorConst irConstant t Elems
  | ast_ZeroInitializerConst => irZeroInitializerConst t
  | ast_UndefConst => irUndefConst t
  | ast_BlockAddressConst Func Block => λ s,
      match irBlockAddressConst t Func Block s with
      | (s', Ok expr) => (s', Ok (ConstBlockAddress expr))
      | (s', Err err) => (s', Err err)
      end
  | ast_GlobalIdent text => λ s,
      let name := asm_global text in
      match gs (fst s) !! name with
      | None => (s, Err (ErrLocateGlobal name))
      | Some v => (s, Ok v)
      end
  | ast_ConstantExpr text => irConstantExpr t text
  end.

(** The loop of [fixBlockAddressConst] over the rest of [f.Blocks]. *)
Fixpoint fix_blocks (c : loc) (f : Func) (blockName : string)
    (blocks : list Block) (h : heap) : heap * option error :=
  match blocks with
  | [] => (h, Some (ErrLocateBlock blockName (GlobalName (FuncIdent f))))
  | block :: blocks' =>
      if String.eqb (LocalName (idents h (block_self block))) blockName then
        (mkHeap (next h) (idents h) (funcs h)
           (<[c := mkBlockAddress (BlockAddress_Func (blockaddrs h c)) block]>
              (blockaddrs h)),
         None)
      else fix_blocks c f blockName blocks' h
  end.

(** [fixBlockAddressConst]. *)
Definition fixBlockAddressConst (c : loc) (h : heap) : heap * option error :=
  let f := funcs h (BlockAddress_Func (blockaddrs h c)) in
  let blockName :=
    LocalName (idents h (block_self (BlockAddress_Block (blockaddrs h c)))) in
  fix_blocks c f blockName (Blocks f) h.

(** ** The numbering and the header as the specification words them *)

(** The locals of an instruction that take part in the numbering: its
    result, when it produces a named value and is not a call of void
    type. *)
Definition inst_numbered (inst : Instruction) : list loc :=
  match inst with
  | InstCall n t => if Equal_Void t then [] else [n]
  | InstValue n _ => [n]
  | InstNoValue => []
  end.

(** The same for a terminator: an invoke of void type takes no part. *)
Definition term_numbered (term : option Terminator) : list loc :=
  match term with
  | Some (TermInvoke n t) => if Equal_Void t then [] else [n]
  | Some (TermValue n _) => [n]
  | Some TermNoValue | None => []
  end.

(** A block: its own identity, its instructions, its terminator. *)
Definition block_numbered (block : Block) : list loc :=
  block_self block
  :: concat (inst_numbered <$> Insts block) ++ term_numbered (Term block).

(** The fixed order: parameters in declaration order, then the blocks in
    list order. *)
Definition numbering_order (f : Func) : list loc :=
  (param_self <$> Params f) ++ concat (block_numbered <$> Blocks f).

(** The anonymous locals among [l], in the order of [l]. *)
Definition anonymous (σ : store) (l : list loc) : list loc :=
  filter (λ n, IsUnnamed (σ n) = true) l.

(** The identifiers the anonymous locals of [l] carry. *)
Definition anonymous_IDs (σ : store) (l : list loc) : list Z :=
  (λ n, ID (σ n)) <$> anonymous σ l.

(** Every anonymous local of [l] carries either 0 or the position it has
    among the anonymous locals, counted from [id]. *)
Fixpoint consistent (σ : store) (id : Z) (l : list loc) : bool :=
  match l with
  | [] => true
  | n :: l' =>
      if IsUnnamed (σ n)
      then ((ID (σ n) =? 0) || (ID (σ n) =? id)) && consistent σ (id + 1) l'
      else consistent σ id l'
  end.

(** [setName] on the object at [n], whatever interface value holds it. *)
Definition setName_at (f : Func) (n : loc) : step :=
  setName f (mkLocal KOtherValue n VoidType).

(** [sep]-separated [l]. *)
Fixpoint join (sep : string) (l : list string) : string :=
  match l with
  | [] => ""
  | [x] => x
  | x :: l' => x +:+ sep +:+ join sep l'
  end.

(** An optional field: its text when it is present. *)
Definition optional (present : bool) (text : string) : list string :=
  if present then [text] else [].

(** The same for a field that is a pointer or an interface. *)
Definition optional_some {A} (field : option A) (text : A → string) :
    list string :=
  match field with Some x => [text x] | None => [] end.

(** The fields of the header in their fixed order, the absent ones left
    out. *)
Definition header_fields `{Printer} (σ : store) (f : Func) : list string :=
  optional (negb (Preemption f =? 0)%N) (Preemption_String (Preemption f))
  ++ optional (negb (Visibility f =? 0)%N) (Visibility_String (Visibility f))
  ++ optional (negb (DLLStorageClass f =? 0)%N)
       (DLLStorageClass_String (DLLStorageClass f))
  ++ optional (negb (CallingConv f =? 0)%N) (callingConvString (CallingConv f))
  ++ (String_ <$> ReturnAttrs f)
  ++ [Type_String (RetType (Sig f))]
  ++ [Ident (FuncIdent f) +:+ "("
      +:+ join ", " ((Param_LLString σ <$> Params f)
                     ++ optional (Variadic (Sig f)) "...")
      +:+ ")"]
  ++ optional (negb (UnnamedAddr f =? 0)%N) (UnnamedAddr_String (UnnamedAddr f))
  ++ (String_ <$> FuncAttrs f)
  ++ optional (negb (String.eqb (Section_ f) ""))
       ("section " +:+ quote (Section_ f))
  ++ optional_some (Comdat f) (λ comdat,
       if String.eqb (Name comdat) (GlobalIdent_Name (FuncIdent f))
       then "comdat" else ComdatDef_String comdat)
  ++ optional (negb (String.eqb (GC f) "")) ("gc " +:+ quote (GC f))
  ++ optional_some (Prefix f) (λ c, "prefix " +:+ Constant_String σ c)
  ++ optional_some (Prologue f) (λ c, "prologue " +:+ Constant_String σ c)
  ++ optional_some (Personality f)
       (λ c, "personality " +:+ Constant_String σ c).

(** Every field preceded by one space. *)
Definition spaced (fields : list string) : string :=
  fold_right String.append "" ((λ field, " " +:+ field) <$> fields).

(** The header. *)
Definition header_text `{Printer} (σ : store) (f : Func) : string :=
  spaced (header_fields σ f).

(** The body: the blocks, a blank line between two of them, then the
    use-list orders, one on a line after a tabulation, between braces. *)
Definition body_text `{Printer} (σ : store) (f : Func) : string :=
  "{" +:+ LF
  +:+ join LF ((λ block, Block_LLString σ block +:+ LF) <$> Blocks f)
  +:+ (if decide (UseListOrders f = []) then "" else LF)
  +:+ fold_right String.append ""
        ((λ u, TAB +:+ String_ u +:+ LF) <$> UseListOrders f)
  +:+ "}".

(** The definition form: [define], the linkage, the header, the metadata
    attachments and the body. *)
Definition definition_text `{Printer} (σ : store) (f : Func) : string :=
  "define"
  +:+ spaced (optional (negb (Linkage f =? 0)%N) (Linkage_String (Linkage f)))
  +:+ header_text σ f
  +:+ spaced (String_ <$> Metadata f)
  +:+ " " +:+ body_text σ f.

(** The assignments [f.Visibility = v], [f.CallingConv = cc] and
    [f.Section = s]. *)
Definition set_Visibility (v : N) (f : Func) : Func :=
  mkFunc (FuncIdent f) (Sig f) (Params f) (Blocks f) (Linkage f)
    (Preemption f) v (DLLStorageClass f) (CallingConv f) (ReturnAttrs f)
    (UnnamedAddr f) (FuncAttrs f) (Section_ f) (Comdat f) (GC f) (Prefix f)
    (Prologue f) (Personality f) (UseListOrders f) (Metadata f).

Definition set_CallingConv (cc : N) (f : Func) : Func :=
  mkFunc (FuncIdent f) (Sig f) (Params f) (Blocks f) (Linkage f)
    (Preemption f) (Visibility f) (DLLStorageClass f) cc (ReturnAttrs f)
    (UnnamedAddr f) (FuncAttrs f) (Section_ f) (Comdat f) (GC f) (Prefix f)
    (Prologue f) (Personality f) (UseListOrders f) (Metadata f).

Definition set_Section (s : string) (f : Func) : Func :=
  mkFunc (FuncIdent f) (Sig f) (Params f) (Blocks f) (Linkage f)
    (Preemption f) (Visibility f) (DLLStorageClass f) (CallingConv f)
    (ReturnAttrs f) (UnnamedAddr f) (FuncAttrs f) s (Comdat f) (GC f)
    (Prefix f) (Prologue f) (Personality f) (UseListOrders f) (Metadata f).

(** The assignment [f.Blocks = blocks]. *)
Definition set_Blocks (blocks : list Block) (f : Func) : Func :=
  mkFunc (FuncIdent f) (Sig f) (Params f) blocks (Linkage f)
    (Preemption f) (Visibility f) (DLLStorageClass f) (CallingConv f)
    (ReturnAttrs f) (UnnamedAddr f) (FuncAttrs f) (Section_ f) (Comdat f)
    (GC f) (Prefix f) (Prologue f) (Personality f) (UseListOrders f)
    (Metadata f).

(** A call instruction of void type. *)
Definition void_call (inst : Instruction) : bool :=
  match inst with InstCall _ t => Equal_Void t | _ => false end.

(** The block without its calls of void type, and with a terminator
    without result in the place of an invoke of void type. *)
Definition without_void (block : Block) : Block :=
  mkBlock (block_self block)
    (filter (λ inst, void_call inst = false) (Insts block))
    (match Term block with
     | Some (TermInvoke _ t) =>
         if Equal_Void t then Some TermNoValue else Term block
     | term => term
     end).

(** The shape of a constant of a type-checked variant; a boolean constant
    wants an integer type. *)
Definition checked_shape (old : ast_Constant) : option const_shape :=
  match old with
  | ast_BoolConst _ => Some ShapeBool
  | ast_IntConst _ => Some ShapeInt
  | ast_FloatConst _ => Some ShapeFloat
  | ast_NullConst => Some ShapeNull
  | ast_StructConst _ => Some ShapeStruct
  | ast_ArrayConst _ => Some ShapeArray
  | ast_VectorConst _ => Some ShapeVector
  | _ => None
  end.

(** The variant of the expected type matches the shape of the constant. *)
Definition shape_matches (t : type) (c : const_shape) : bool :=
  match c, t with
  | (ShapeBool | ShapeInt), IntType _ => true
  | ShapeFloat, FloatType _ => true
  | ShapeNull, PointerType _ => true
  | ShapeStruct, StructType _ => true
  | ShapeArray, ArrayType _ _ => true
  | ShapeVector, VectorType _ _ => true
  | _, _ => false
  end.

(** ** What the lowering keeps *)

(** The state [s'] extends the state [s]: the globals and the functions
    are the same, no object allocated in [s] has changed, and the block
    addresses to fix are those of [s] followed by objects allocated
    since. *)
Definition extends (s s' : generator * heap) : Prop :=
  gs s'.1 = gs s.1
  ∧ funcs s'.2 = funcs s.2
  ∧ (next s.2 ≤ next s'.2)%positive
  ∧ (∀ r, (r < next s.2)%positive →
          idents s'.2 r = idents s.2 r ∧ blockaddrs s'.2 r = blockaddrs s.2 r)
  ∧ ∃ new,
      todo s'.1 = todo s.1 ++ new
      ∧ Forall (λ c, (next s.2 ≤ c)%positive ∧ (c < next s'.2)%positive) new.

(** The elements [l], lowered one after the other with [lower_one] from
    the state [s], give the constants [cs] and the state [s']. *)
Inductive lowered {A} (lower_one : A → lower Constant) :
    generator * heap → list A → list Constant → generator * heap → Prop :=
| lowered_nil s : lowered lower_one s [] [] s
| lowered_cons s e s1 c l cs s' :
    lower_one e s = (s1, Ok c) →
    lowered lower_one s1 l cs s' →
    lowered lower_one s (e :: l) (c :: cs) s'.

(** The elements of an aggregate constant whose shape the type matches,
    and the constructor of the constant. *)
Definition aggregate_of (t : type) (old : ast_Constant) :
    option (list ast_TypeConst * (list Constant → Constant)) :=
  match old, t with
  | ast_StructConst Fields, StructType _ => Some (Fields, ConstStruct t)
  | ast_ArrayConst Elems, ArrayType _ _ => Some (Elems, ConstArray t)
  | ast_VectorConst Elems, VectorType _ _ => Some (Elems, ConstVector t)
  | _, _ => None
  end.

(** The constant of a typed constant. *)
Definition TypeConst_Val (tc : ast_TypeConst) : ast_Constant :=
  match tc with mk_ast_TypeConst _ Val => Val end.

(** The number of block-address nodes of a constant. *)
Fixpoint block_addresses (old : ast_Constant) : nat :=
  match old with
  | ast_StructConst l | ast_ArrayConst l | ast_VectorConst l =>
      (fix go (l : list ast_TypeConst) : nat :=
         match l with
         | [] => 0
         | mk_ast_TypeConst _ v :: l' => block_addresses v + go l'
         end) l
  | ast_BlockAddressConst _ _ => 1
  | _ => 0
  end%nat.

(** The constant holds no constant expression. *)
Fixpoint expression_free (old : ast_Constant) : bool :=
  match old with
  | ast_StructConst l | ast_ArrayConst l | ast_VectorConst l =>
      (fix go (l : list ast_TypeConst) : bool :=
         match l with
         | [] => true
         | mk_ast_TypeConst _ v :: l' => expression_free v && go l'
         end) l
  | ast_ConstantExpr _ => false
  | _ => true
  end.

(** ** Sample values *)

(** The double quote. *)
Definition DQ : string := String "034"%char "".

(** A printer in the syntax of LLVM, as far as the samples go. *)
Definition sample_Type_String (t : type) : string :=
  match t with
  | VoidType => "void"
  | IntType n => "i" +:+ pretty n
  | LabelType => "label"
  | _ => "ptr"
  end.

Definition sample_local_ident (i : LocalIdent) : string :=
  "%" +:+ (if IsUnnamed i then pretty (ID i) else LocalName i).

#[local] Instance sample_printer : Printer := {|
  Linkage_String _ := "internal";
  Preemption_String _ := "dso_local";
  Visibility_String v := if (v =? 2)%N then "hidden" else "protected";
  DLLStorageClass_String _ := "dllexport";
  callingConvString cc := if (cc =? 8)%N then "fastcc" else "coldcc";
  UnnamedAddr_String _ := "unnamed_addr";
  Type_String := sample_Type_String;
  Ident g := "@" +:+ GlobalName g;
  GlobalIdent_Name := GlobalName;
  Param_LLString σ p :=
    sample_Type_String (param_Typ p) +:+ " "
    +:+ sample_local_ident (σ (param_self p));
  Block_LLString σ b :=
    (if IsUnnamed (σ (block_self b)) then pretty (ID (σ (block_self b)))
     else LocalName (σ (block_self b))) +:+ ":";
  quote s := DQ +:+ s +:+ DQ;
  ComdatDef_String c := "comdat($" +:+ Name c +:+ ")";
  Constant_String _ _ := "null";
|}.

(** A function [f] without attributes. *)
Definition plain_func (params : list Param) (blocks : list Block) : Func :=
  mkFunc (mkGlobalIdent "f" 0) (mkFuncSig VoidType false) params blocks
    0 0 0 0 0 [] 0 [] "" None "" None None None [] [].

(** Identifiers: every local is anonymous with ID 0, but for the two named
    ones at 2 and 7. *)
Definition sample_store : store :=
  <[2%positive := mkLocalIdent "x" 0]>
    (<[7%positive := mkLocalIdent "exit" 0]> (λ _, mkLocalIdent "" 0)).

(** [define void @f(i32 %0, i32 %x)] with an anonymous block of an add, a
    void call, a store and a call of type i32, and a block [exit] that ends
    in a void invoke. *)
Definition sample_func : Func :=
  plain_func
    [mkParam 1 (IntType 32); mkParam 2 (IntType 32)]
    [mkBlock 3
       [InstValue 4 (IntType 32); InstCall 5 VoidType; InstNoValue;
        InstCall 6 (IntType 32)]
       (Some TermNoValue);
     mkBlock 7 [] (Some (TermInvoke 8 VoidType))].

(** The same identifiers, the add carrying the ID 7. *)
Definition stale_store : store :=
  <[4%positive := mkLocalIdent "" 7]> sample_store.

(** A function of one anonymous block that carries the ID 3. *)
Definition stale_block_func : Func :=
  plain_func [] [mkBlock 1 [] (Some TermNoValue)].

Definition stale_block_store : store :=
  <[1%positive := mkLocalIdent "" 3]> (λ _, mkLocalIdent "" 0).

(** A function of one anonymous parameter and one anonymous block whose
    only instruction is a void call before [ret void]. *)
Definition void_call_func : Func :=
  plain_func [mkParam 3 (IntType 32)]
    [mkBlock 1 [InstCall 2 VoidType] (Some TermNoValue)].

Definition fresh_store : store := λ _, mkLocalIdent "" 0.

(** The collaborators of the lowering, as far as the samples go. *)
Definition strip_sigil (s : string) : string :=
  match s with String _ rest => rest | "" => "" end.

#[local] Instance sample_lowering : Lowering := {|
  irType _ text :=
    if String.eqb text "i32" then Ok (IntType 32)
    else Err (ErrExternal "unknown type");
  irConstantExpr _ text s := (s, Ok (ConstExpr text));
  function gen name :=
    match gs gen !! name with
    | Some (ConstGlobal f) => Ok f
    | _ => Err (ErrExternal "unknown function")
    end;
  NewIntFromString bits text :=
    if String.eqb text "1" then Ok (ConstInt bits 1)
    else Err (ErrExternal "unknown literal");
  NewFloatFromString _ _ := Err (ErrExternal "unknown literal");
  boolLit text := String.eqb text "true";
  stringLitBytes := list_byte_of_string;
  asm_global := strip_sigil;
  asm_local := strip_sigil;
|}.

(** A generator that knows the function [@f] at address 10, and a heap in
    which [@f] has the blocks [entry] and [loop]. *)
Definition sample_generator : generator :=
  mkGenerator {[ "f" := ConstGlobal 10 ]} [].

Definition sample_heap : heap :=
  mkHeap 100
    (<[20%positive := mkLocalIdent "entry" 0]>
       (<[21%positive := mkLocalIdent "loop" 0]> (λ _, mkLocalIdent "" 0)))
    (λ _, plain_func []
            [mkBlock 20 [] (Some TermNoValue);
             mkBlock 21 [] (Some TermNoValue)])
    (λ _, mkBlockAddress 1 (mkBlock 1 [] None)).

(** A declaration of one anonymous parameter. *)
Definition declared_func : Func := plain_func [mkParam 1 (IntType 32)] [].

(** The struct constant [{ i32 1, i32 1 }]. *)
Definition sample_struct : ast_Constant :=
  ast_StructConst [mk_ast_TypeConst "i32" (ast_IntConst "1");
                   mk_ast_TypeConst "i32" (ast_IntConst "1")].

(** The struct constant of the block addresses of [%loop] and [%nope]. *)
Definition sample_addresses : ast_Constant :=
  ast_StructConst
    [mk_ast_TypeConst "i32" (ast_BlockAddressConst "@f" "%loop");
     mk_ast_TypeConst "i32" (ast_BlockAddressConst "@f" "%nope")].

(** The state after lowering the block addresses of [%loop] and of [%nope]
    in [@f]. *)
Definition sample_lowered : generator * heap :=
  (irBlockAddressConst (IntType 8) "@f" "%nope"
     (irBlockAddressConst (IntType 8) "@f" "%loop"
        (sample_generator, sample_heap)).1).1.

(** * Properties *)

(** ** The loops of [AssignIDs] *)

Lemma wrap64_small z : - 2 ^ 63 ≤ z < 2 ^ 63 → wrap64 z = z.
Proof. intros Hz. unfold wrap64. rewrite Z.mod_small; lia. Qed.

Lemma check_eq c s : check c s = c s.
Proof. unfold check, WithStack. by destruct (c s) as [s' [err|]]. Qed.

Lemma and_then_continue c s : and_then c continue s = c s.
Proof. unfold and_then, continue. by destruct (c s) as [s' [err|]]. Qed.

Lemma and_then_assoc c1 c2 c3 s :
  and_then (and_then c1 c2) c3 s = and_then c1 (and_then c2 c3) s.
Proof. unfold and_then. by destruct (c1 s) as [s' [err|]]. Qed.

Lemma and_then_ext c1 c1' c2 c2' s :
  c1 s = c1' s → (∀ s', c2 s' = c2' s') → and_then c1 c2 s = and_then c1' c2' s.
Proof.
  intros H1 H2. unfold and_then. rewrite H1.
  destruct (c1' s) as [s' [err|]]; [done | apply H2].
Qed.

Lemma range_app {A} (body : A → step) l1 l2 s :
  range body (l1 ++ l2) s = and_then (range body l1) (range body l2) s.
Proof.
  revert s. induction l1 as [|x l1 IH]; intros s; simpl; [done|].
  rewrite and_then_assoc. by apply and_then_ext.
Qed.

Lemma range_ext {A} (body body' : A → step) l s :
  (∀ x s', body x s' = body' x s') → range body l s = range body' l s.
Proof.
  intros Hb. revert s. induction l as [|x l IH]; intros s; simpl; [done|].
  by apply and_then_ext.
Qed.

(** A loop whose body is itself a loop over the locals [parts x] visits the
    concatenation of the parts. *)
Lemma range_concat {A} (body : A → step) (each : loc → step)
    (parts : A → list loc) l s :
  (∀ x s', body x s' = range each (parts x) s') →
  range body l s = range each (concat (parts <$> l)) s.
Proof.
  intros Hb. revert s. induction l as [|x l IH]; intros s; simpl; [done|].
  rewrite range_app. by apply and_then_ext.
Qed.

Lemma range_singleton {A} (body : A → step) x s :
  range body [x] s = body x s.
Proof. simpl. apply and_then_continue. Qed.

Lemma check_setName f n s :
  check (setName f n) s = range (setName_at f) [self n] s.
Proof. by rewrite check_eq, range_singleton. Qed.

Lemma inst_body_numbered f inst s :
  inst_body f inst s = range (setName_at f) (inst_numbered inst) s.
Proof.
  destruct inst as [n t|n t|]; unfold inst_body, inst_numbered, isVoidValue;
    cbn [inst_local kind Typ]; [|apply check_setName|done].
  destruct (Equal_Void t); [done | apply check_setName].
Qed.

Lemma term_body_numbered f term s :
  term_body f term s = range (setName_at f) (term_numbered term) s.
Proof.
  destruct term as [[n t|n t|]|]; unfold term_body, term_numbered, isVoidValue;
    cbn [term_local kind Typ]; [|apply check_setName|done..].
  destruct (Equal_Void t); [done | apply check_setName].
Qed.

Lemma block_body_numbered f block s :
  block_body f block s = range (setName_at f) (block_numbered block) s.
Proof.
  unfold block_body, block_numbered.
  change (block_self block :: ?l) with ([block_self block] ++ l).
  rewrite range_app. apply and_then_ext; [apply check_setName|]. intros s'.
  rewrite range_app. apply and_then_ext.
  - apply range_concat. intros. apply inst_body_numbered.
  - intros. apply term_body_numbered.
Qed.

Lemma params_numbered f params s :
  range (λ param, check (setName f (local_of_param param))) params s
  = range (setName_at f) (param_self <$> params) s.
Proof.
  revert s. induction params as [|p ps IH]; intros s; [done|].
  cbn [range fmap list_fmap]. apply and_then_ext; [|done].
  by rewrite check_eq.
Qed.

(** The nested loops of [AssignIDs] are one loop of [setName] over the
    fixed order. *)
Lemma AssignIDs_order f σ :
  Blocks f ≠ [] →
  AssignIDs f σ =
    (fst (fst (range (setName_at f) (numbering_order f) (σ, 0))),
     snd (range (setName_at f) (numbering_order f) (σ, 0))).
Proof.
  intros Hb. unfold AssignIDs, numbering_order.
  destruct (Blocks f) as [|b bs] eqn:Hbs; [done|].
  cbn [length Nat.eqb]. rewrite range_app.
  rewrite (and_then_ext _ (range (setName_at f) (param_self <$> Params f))
             _ (range (setName_at f) (concat (block_numbered <$> b :: bs)))).
  - by destruct (and_then _ _ _) as [[σ' id'] err].
  - apply params_numbered.
  - intros s'. apply range_concat. intros. apply block_body_numbered.
Qed.

(** ** One pass of [setName] over a list of locals *)

Lemma setName_at_eq f n σ id :
  setName_at f n (σ, id) =
    if IsUnnamed (σ n) then
      if negb (ID (σ n) =? 0) && negb (id =? ID (σ n)) then
        ((σ, id), Some (ErrInvalidLocalID (FuncIdent f) id (ID (σ n))))
      else ((SetID σ n id, wrap64 (id + 1)), None)
    else ((σ, id), None).
Proof. reflexivity. Qed.

Lemma setName_at_named f n σ id :
  IsUnnamed (σ n) = false → setName_at f n (σ, id) = ((σ, id), None).
Proof. intros Hn. by rewrite setName_at_eq, Hn. Qed.

Lemma setName_at_pass f n σ id :
  IsUnnamed (σ n) = true → ID (σ n) = 0 ∨ ID (σ n) = id →
  setName_at f n (σ, id) = ((SetID σ n id, wrap64 (id + 1)), None).
Proof.
  intros Hn Hid. rewrite setName_at_eq, Hn.
  destruct Hid as [-> | ->]; [done|]. by rewrite Z.eqb_refl, andb_false_r.
Qed.

Lemma setName_at_fail f n σ id :
  IsUnnamed (σ n) = true → ID (σ n) ≠ 0 → ID (σ n) ≠ id →
  setName_at f n (σ, id) =
    ((σ, id), Some (ErrInvalidLocalID (FuncIdent f) id (ID (σ n)))).
Proof.
  intros Hn H0 Hid. rewrite setName_at_eq, Hn.
  destruct (Z.eqb_spec (ID (σ n)) 0); [done|].
  by destruct (Z.eqb_spec id (ID (σ n))).
Qed.

Lemma SetID_name σ n id m : LocalName (SetID σ n id m) = LocalName (σ m).
Proof.
  unfold SetID. destruct (decide (n = m)) as [->|].
  - by rewrite fn_lookup_insert.
  - by rewrite fn_lookup_insert_ne.
Qed.

Lemma SetID_eq σ n id : ID (SetID σ n id n) = id.
Proof. unfold SetID. by rewrite fn_lookup_insert. Qed.

Lemma SetID_ne σ n id m : n ≠ m → SetID σ n id m = σ m.
Proof. intros. unfold SetID. by rewrite fn_lookup_insert_ne. Qed.

Lemma setName_at_name f n s m :
  LocalName ((setName_at f n s).1.1 m) = LocalName (s.1 m).
Proof.
  destruct s as [σ id]. rewrite setName_at_eq.
  destruct (IsUnnamed (σ n)); [|done].
  destruct (_ && _); [done|]. apply SetID_name.
Qed.

(** The pass never changes a name. *)
Lemma range_setName_name f l s m :
  LocalName ((range (setName_at f) l s).1.1 m) = LocalName (s.1 m).
Proof.
  revert s. induction l as [|n l IH]; intros s; [done|].
  cbn [range]. unfold and_then.
  pose proof (setName_at_name f n s m) as Hn.
  destruct (setName_at f n s) as [s' [err|]]; [done|].
  by rewrite IH.
Qed.

Lemma anonymous_cons σ n l :
  anonymous σ (n :: l) =
    if IsUnnamed (σ n) then n :: anonymous σ l else anonymous σ l.
Proof.
  unfold anonymous. rewrite filter_cons.
  destruct (IsUnnamed (σ n)); by case_decide.
Qed.

Lemma anonymous_app σ l1 l2 :
  anonymous σ (l1 ++ l2) = anonymous σ l1 ++ anonymous σ l2.
Proof. apply filter_app. Qed.

Lemma elem_of_anonymous σ n l :
  n ∈ anonymous σ l ↔ IsUnnamed (σ n) = true ∧ n ∈ l.
Proof. unfold anonymous. by rewrite list_elem_of_filter. Qed.

Lemma IsUnnamed_name i j : LocalName i = LocalName j → IsUnnamed i = IsUnnamed j.
Proof. unfold IsUnnamed. by intros ->. Qed.

Lemma anonymous_ext σ σ' l :
  (∀ m, LocalName (σ' m) = LocalName (σ m)) → anonymous σ' l = anonymous σ l.
Proof.
  intros Hn. induction l as [|n l IH]; [done|].
  by rewrite !anonymous_cons, IH, (IsUnnamed_name _ _ (Hn n)).
Qed.

(** The pass only writes to the anonymous locals of the list. *)
Lemma range_setName_frame f l σ id m :
  m ∉ anonymous σ l → (range (setName_at f) l (σ, id)).1.1 m = σ m.
Proof.
  revert σ id. induction l as [|n l IH]; intros σ id Hm; [done|].
  cbn [range]. unfold and_then. rewrite setName_at_eq.
  rewrite anonymous_cons in Hm.
  destruct (IsUnnamed (σ n)) eqn:Hn; [|by apply IH].
  destruct (_ && _); [done|].
  apply not_elem_of_cons in Hm as [Hmn Hm].
  rewrite IH; [by apply SetID_ne|].
  by rewrite (anonymous_ext σ) by apply SetID_name.
Qed.

Lemma consistent_ext σ σ' id l :
  (∀ m, m ∈ anonymous σ l → σ' m = σ m) →
  (∀ m, LocalName (σ' m) = LocalName (σ m)) →
  consistent σ' id l = consistent σ id l.
Proof.
  intros Hs Hn. revert id. induction l as [|n l IH]; intros id; [done|].
  cbn [consistent]. rewrite (IsUnnamed_name _ _ (Hn n)).
  destruct (IsUnnamed (σ n)) eqn:Hu.
  - rewrite Hs by (rewrite anonymous_cons, Hu; left).
    rewrite IH; [done|]. intros m Hm. apply Hs.
    rewrite anonymous_cons, Hu. by right.
  - apply IH. intros m Hm. apply Hs. by rewrite anonymous_cons, Hu.
Qed.

(** When the anonymous locals of [l] are distinct objects and each carries
    0 or its position, the pass succeeds and leaves the dense sequence. *)
Lemma range_setName_dense f l σ id :
  NoDup (anonymous σ l) →
  0 ≤ id → id + Z.of_nat (length (anonymous σ l)) < 2 ^ 63 →
  consistent σ id l = true →
  ∃ σ',
    range (setName_at f) l (σ, id)
      = ((σ', id + Z.of_nat (length (anonymous σ l))), None)
    ∧ anonymous_IDs σ' l = seqZ id (Z.of_nat (length (anonymous σ l))).
Proof.
  revert σ id. induction l as [|n l IH]; intros σ id Hnd Hid Hlen Hc.
  { exists σ. cbn. by rewrite Z.add_0_r. }
  cbn [range consistent] in *. unfold and_then.
  rewrite anonymous_cons in *. destruct (IsUnnamed (σ n)) eqn:Hn.
  - apply NoDup_cons in Hnd as [Hnl Hnd]. cbn [length] in *.
    apply andb_true_iff in Hc as [Hc1 Hc2].
    rewrite setName_at_pass by (done || lia).
    rewrite wrap64_small by lia.
    assert (Hanon : anonymous (SetID σ n id) l = anonymous σ l)
      by (apply anonymous_ext; intros; apply SetID_name).
    destruct (IH (SetID σ n id) (id + 1)) as (σ' & Hrun & Hids).
    + by rewrite Hanon.
    + lia.
    + rewrite Hanon. lia.
    + rewrite (consistent_ext σ); [done| |apply SetID_name].
      intros m Hm. apply SetID_ne. by intros ->.
    + exists σ'. rewrite Hrun, Hanon. split; [do 2 f_equal; lia|].
      unfold anonymous_IDs in *.
      assert (Hσ' : ∀ m, LocalName (σ' m) = LocalName (σ m)).
      { intros m.
        pose proof (range_setName_name f l (SetID σ n id, id + 1) m) as Hm.
        rewrite Hrun in Hm. cbn in Hm. by rewrite Hm, SetID_name. }
      rewrite Hanon in Hids.
      rewrite (anonymous_ext σ σ') in Hids |- * by done.
      rewrite anonymous_cons, Hn. cbn [fmap list_fmap]. rewrite Hids.
      pose proof (range_setName_frame f l (SetID σ n id) (id + 1) n) as Hfr.
      rewrite Hrun, Hanon in Hfr. cbn in Hfr. rewrite Hfr by done.
      rewrite SetID_eq.
      rewrite (seqZ_cons id) by lia. do 2 f_equal; lia.
  - rewrite setName_at_named by done.
    destruct (IH σ id) as (σ' & Hrun & Hids); [done..|].
    exists σ'. split; [done|]. unfold anonymous_IDs in *.
    rewrite anonymous_cons.
    pose proof (range_setName_name f l (σ, id) n) as Hm.
    rewrite Hrun in Hm. cbn in Hm.
    by rewrite (IsUnnamed_name _ _ Hm), Hn.
Qed.

Lemma wrap64_wrap64 z : wrap64 (wrap64 z) = wrap64 z.
Proof.
  unfold wrap64.
  replace ((z + 2 ^ 63) `mod` 2 ^ 64 - 2 ^ 63 + 2 ^ 63)
    with ((z + 2 ^ 63) `mod` 2 ^ 64) by lia.
  by rewrite Zmod_mod.
Qed.

Lemma wrap64_add_l a b : wrap64 (wrap64 a + b) = wrap64 (a + b).
Proof.
  unfold wrap64. f_equal.
  replace ((a + 2 ^ 63) `mod` 2 ^ 64 - 2 ^ 63 + b + 2 ^ 63)
    with ((a + 2 ^ 63) `mod` 2 ^ 64 + b) by lia.
  rewrite Zplus_mod_idemp_l. f_equal. lia.
Qed.

(** After a pass without error the counter is the number of anonymous
    locals it went over, as an [int64]. *)
Lemma range_setName_counter f l σ id :
  wrap64 id = id →
  (range (setName_at f) l (σ, id)).2 = None →
  (range (setName_at f) l (σ, id)).1.2
    = wrap64 (id + Z.of_nat (length (anonymous σ l))).
Proof.
  revert σ id. induction l as [|n l IH]; intros σ id Hid Hok.
  { cbn. by rewrite Z.add_0_r. }
  cbn [range] in *. unfold and_then in *. rewrite setName_at_eq in *.
  rewrite anonymous_cons. destruct (IsUnnamed (σ n)) eqn:Hn; [|by apply IH].
  destruct (_ && _); [done|].
  rewrite IH; [|apply wrap64_wrap64|done].
  rewrite (anonymous_ext σ) by apply SetID_name. cbn [length].
  rewrite wrap64_add_l. f_equal. lia.
Qed.

(** Every error of a pass is an invalid local ID of the function. *)
Lemma range_setName_error f l s err :
  (range (setName_at f) l s).2 = Some err →
  ∃ want got, err = ErrInvalidLocalID (FuncIdent f) want got.
Proof.
  revert s. induction l as [|n l IH]; intros [σ id] Herr; [done|].
  cbn [range] in Herr. unfold and_then in Herr. rewrite setName_at_eq in Herr.
  destruct (IsUnnamed (σ n)); [|by eapply IH].
  destruct (_ && _); [|by eapply IH].
  cbn in Herr. injection Herr as <-. eauto.
Qed.

(** When the anonymous locals are distinct objects and one of them carries
    neither 0 nor its position, the pass fails. *)
Lemma range_setName_stale f l σ id :
  NoDup (anonymous σ l) →
  consistent σ id l = false →
  0 ≤ id → id + Z.of_nat (length (anonymous σ l)) < 2 ^ 63 →
  (range (setName_at f) l (σ, id)).2 ≠ None.
Proof.
  revert σ id. induction l as [|n l IH]; intros σ id Hnd Hc Hid Hlen; [done|].
  cbn [range consistent] in *. unfold and_then. rewrite setName_at_eq.
  rewrite anonymous_cons in *. destruct (IsUnnamed (σ n)) eqn:Hn; [|by apply IH].
  apply NoDup_cons in Hnd as [Hnl Hnd]. cbn [length] in *.
  destruct (Z.eqb_spec (ID (σ n)) 0) as [H0|H0]; cbn [negb andb orb] in *.
  - rewrite wrap64_small by lia. apply IH.
    + by rewrite (anonymous_ext σ) by apply SetID_name.
    + rewrite (consistent_ext σ); [done| |apply SetID_name].
      intros m Hm. apply SetID_ne. by intros ->.
    + lia.
    + rewrite (anonymous_ext σ) by apply SetID_name. lia.
  - rewrite (Z.eqb_sym id). destruct (Z.eqb_spec (ID (σ n)) id); [|done].
    cbn [negb andb orb] in *. rewrite wrap64_small by lia. apply IH.
    + by rewrite (anonymous_ext σ) by apply SetID_name.
    + rewrite (consistent_ext σ); [done| |apply SetID_name].
      intros m Hm. apply SetID_ne. by intros ->.
    + lia.
    + rewrite (anonymous_ext σ) by apply SetID_name. lia.
Qed.

(** A second pass over distinct objects, started from the identifiers the
    first pass left, ends as the first pass did. *)
Lemma range_setName_again f l σ id σ2 :
  NoDup (anonymous σ l) →
  (∀ m, σ2 m = (range (setName_at f) l (σ, id)).1.1 m) →
  (range (setName_at f) l (σ2, id)).2 = (range (setName_at f) l (σ, id)).2
  ∧ ∀ m, (range (setName_at f) l (σ2, id)).1.1 m
         = (range (setName_at f) l (σ, id)).1.1 m.
Proof.
  revert σ id σ2. induction l as [|n l IH]; intros σ id σ2 Hnd Hσ2; [done|].
  pose proof (range_setName_frame f (n :: l) σ id n) as Hfr.
  pose proof (λ m, range_setName_name f (n :: l) (σ, id) m) as Hnm.
  cbn [range] in *. unfold and_then in *.
  rewrite (setName_at_eq f n σ2), (setName_at_eq f n σ) in *.
  rewrite anonymous_cons in *.
  assert (Hu : IsUnnamed (σ2 n) = IsUnnamed (σ n)).
  { apply IsUnnamed_name. by rewrite Hσ2, Hnm. }
  rewrite Hu. destruct (IsUnnamed (σ n)) eqn:Hn; [|by apply IH].
  apply NoDup_cons in Hnd as [Hnl Hnd].
  destruct (negb (ID (σ n) =? 0) && negb (id =? ID (σ n))) eqn:Hst.
  { cbn in Hσ2. rewrite Hσ2, Hst. cbn. split; [done|]. intros m. apply Hσ2. }
  assert (Hanon : anonymous (SetID σ n id) l = anonymous σ l)
    by (apply anonymous_ext; intros; apply SetID_name).
  pose proof (range_setName_frame f l (SetID σ n id) (wrap64 (id + 1)) n) as Hn1.
  rewrite Hanon in Hn1. specialize (Hn1 Hnl).
  assert (Hid2 : ID (σ2 n) = id) by by rewrite Hσ2, Hn1, SetID_eq.
  rewrite Hid2, Z.eqb_refl, andb_false_r.
  apply IH; [by rewrite Hanon|]. intros m.
  destruct (decide (n = m)) as [<-|Hne].
  - rewrite Hn1. unfold SetID. rewrite !fn_lookup_insert.
    f_equal. by rewrite Hσ2, Hn1, SetID_name.
  - rewrite SetID_ne by done. apply Hσ2.
Qed.

(** ** The printer *)

Lemma append_nil_r (s : string) : s +:+ "" = s.
Proof.
  induction s as [|c s IH]; [done|].
  change (String c s +:+ "") with (String c (s +:+ "")). by rewrite IH.
Qed.

Lemma append_assoc (s1 s2 s3 : string) :
  (s1 +:+ s2) +:+ s3 = s1 +:+ s2 +:+ s3.
Proof.
  induction s1 as [|c s1 IH]; [done|].
  change (String c (s1 +:+ s2) +:+ s3 = String c (s1 +:+ s2 +:+ s3)).
  change (String c ((s1 +:+ s2) +:+ s3) = String c (s1 +:+ s2 +:+ s3)).
  by rewrite IH.
Qed.

Lemma Fprintf_s buf x : Fprintf buf " %s" x = buf +:+ " " +:+ x.
Proof.
  unfold Fprintf. change (Sprintf " %s" x) with (" " +:+ x +:+ "").
  by rewrite append_nil_r.
Qed.

Lemma spaced_cons x l : spaced (x :: l) = " " +:+ x +:+ spaced l.
Proof. reflexivity. Qed.

Lemma spaced_app l1 l2 : spaced (l1 ++ l2) = spaced l1 +:+ spaced l2.
Proof.
  induction l1 as [|x l1 IH]; [done|].
  cbn [app]. rewrite !spaced_cons, IH. by rewrite !append_assoc.
Qed.

Lemma spaced_optional buf (c : bool) x :
  (if c then Fprintf buf " %s" x else buf) = buf +:+ spaced (optional c x).
Proof.
  destruct c; cbn [optional].
  - by rewrite Fprintf_s, spaced_cons, append_nil_r.
  - by rewrite append_nil_r.
Qed.

Lemma range_index_spaced {A} (g : A → string) l i buf :
  range_index (λ _ a buf, Fprintf buf " %s" (g a)) i l buf
  = buf +:+ spaced (g <$> l).
Proof.
  revert i buf. induction l as [|a l IH]; intros i buf; cbn [range_index].
  - by rewrite append_nil_r.
  - rewrite IH, Fprintf_s. cbn [fmap list_fmap]. rewrite spaced_cons.
    by rewrite !append_assoc.
Qed.

Lemma join_cons sep x l :
  join sep (x :: l)
  = x +:+ fold_right String.append "" ((λ y, sep +:+ y) <$> l).
Proof.
  revert x. induction l as [|y l IH]; intros x.
  - cbn [join fmap list_fmap fold_right]. by rewrite append_nil_r.
  - change (join sep (x :: y :: l)) with (x +:+ sep +:+ join sep (y :: l)).
    rewrite IH. cbn [fmap list_fmap fold_right]. by rewrite !append_assoc.
Qed.

Lemma range_index_separated {A} (g : A → string) sep l i buf :
  range_index (λ i a buf,
    WriteString (if negb (i =? 0)%nat then WriteString buf sep else buf) (g a))
    (S i) l buf
  = buf +:+ fold_right String.append "" ((λ y, sep +:+ y) <$> (g <$> l)).
Proof.
  revert i buf. induction l as [|a l IH]; intros i buf; cbn [range_index].
  - by rewrite append_nil_r.
  - rewrite IH. cbn [Nat.eqb negb fmap list_fmap fold_right].
    unfold WriteString. by rewrite !append_assoc.
Qed.

Lemma range_index_join {A} (g : A → string) sep l buf :
  range_index (λ i a buf,
    WriteString (if negb (i =? 0)%nat then WriteString buf sep else buf) (g a))
    0 l buf
  = buf +:+ join sep (g <$> l).
Proof.
  destruct l as [|a l]; cbn [range_index].
  - by rewrite append_nil_r.
  - rewrite range_index_separated. cbn [fmap list_fmap]. rewrite join_cons.
    cbn [Nat.eqb negb]. unfold WriteString. by rewrite append_assoc.
Qed.

Lemma join_snoc sep l x :
  join sep (l ++ [x])
  = join sep l +:+ (if (0 <? length l)%nat then sep else "") +:+ x.
Proof.
  destruct l as [|y l]; [done|].
  cbn [app length Nat.ltb Nat.leb]. rewrite !join_cons, fmap_app, foldr_app.
  cbn [fmap list_fmap foldr]. rewrite append_nil_r, append_assoc. f_equal.
  induction l as [|z l IH]; [done|].
  cbn [app fmap list_fmap fold_right]. by rewrite !append_assoc, IH.
Qed.

Lemma nonempty_eqb (s : string) :
  (0 <? String.length s)%nat = negb (String.eqb s "").
Proof. by destruct s. Qed.

Lemma spaced_singleton x : spaced [x] = " " +:+ x.
Proof. unfold spaced. cbn [fmap list_fmap fold_right]. by rewrite append_assoc, append_nil_r. Qed.

Lemma spaced_optional_some {A} buf (field : option A) (g : A → string) pre
    (fmt : string) :
  (∀ x, Sprintf fmt x = " " +:+ pre +:+ x +:+ "") →
  match field with Some c => Fprintf buf fmt (g c) | None => buf end
  = buf +:+ spaced (optional_some field (λ c, pre +:+ g c)).
Proof.
  intros Hfmt. destruct field as [c|]; cbn [optional_some].
  - unfold Fprintf. by rewrite Hfmt, spaced_singleton, append_nil_r.
  - by rewrite append_nil_r.
Qed.

Lemma spaced_optional_nonempty buf (s : string) pre (fmt : string) x :
  Sprintf fmt x = " " +:+ pre +:+ x +:+ "" →
  (if (0 <? String.length s)%nat then Fprintf buf fmt x else buf)
  = buf +:+ spaced (optional (negb (String.eqb s "")) (pre +:+ x)).
Proof.
  intros Hfmt. rewrite nonempty_eqb. destruct (negb _); cbn [optional].
  - unfold Fprintf. by rewrite Hfmt, spaced_singleton, append_nil_r.
  - by rewrite append_nil_r.
Qed.

Lemma join_variadic {A} (g : A → string) (l : list A) (v : bool) buf :
  (if v
   then let buf := if (0 <? length l)%nat
                   then WriteString (buf +:+ join ", " (g <$> l)) ", "
                   else buf +:+ join ", " (g <$> l) in
        WriteString buf "..."
   else buf +:+ join ", " (g <$> l))
  = buf +:+ join ", " ((g <$> l) ++ optional v "...").
Proof.
  destruct v; cbn [optional]; [|by rewrite app_nil_r]. cbv zeta.
  rewrite join_snoc, length_fmap. unfold WriteString.
  destruct (0 <? length l)%nat; by rewrite !append_assoc.
Qed.

Lemma WriteString_eq buf s : WriteString buf s = buf +:+ s.
Proof. reflexivity. Qed.

Lemma Fprintf_open buf x : Fprintf buf " %s(" x = buf +:+ " " +:+ x +:+ "(".
Proof. reflexivity. Qed.

Lemma spaced_comdat buf (field : option ComdatDef) (name : string)
    (g : ComdatDef → string) :
  match field with
  | Some comdat =>
      if String.eqb (Name comdat) name then WriteString buf " comdat"
      else Fprintf buf " %s" (g comdat)
  | None => buf
  end
  = buf +:+ spaced (optional_some field (λ comdat,
      if String.eqb (Name comdat) name then "comdat" else g comdat)).
Proof.
  destruct field as [comdat|]; cbn [optional_some].
  - rewrite spaced_singleton.
    destruct (String.eqb _ _); [done | apply Fprintf_s].
  - by rewrite append_nil_r.
Qed.

(** Take the first statement: the goal goes on with its result. *)
Ltac next_statement :=
  lazymatch goal with
  | |- (let x := ?e in @?body x) = ?rhs => change (body e = rhs); cbv beta
  end.

(** The statements of [headerString] in turn append the fields of the
    header, each after one space. *)
Lemma headerString_text `{Printer} σ f : headerString σ f = header_text σ f.
Proof.
  unfold header_text, header_fields. cbv delta [headerString]. cbv beta.
  next_statement.
  do 4 (next_statement; rewrite spaced_optional).
  next_statement; rewrite range_index_spaced.
  next_statement; rewrite Fprintf_s.
  next_statement.
  rewrite Fprintf_open.
  next_statement; rewrite range_index_join.
  next_statement; rewrite join_variadic.
  next_statement; rewrite WriteString_eq.
  next_statement; rewrite spaced_optional.
  next_statement; rewrite range_index_spaced.
  next_statement.
  rewrite (spaced_optional_nonempty _ _ "section " " section %s") by reflexivity.
  next_statement; rewrite spaced_comdat.
  rewrite (spaced_optional_nonempty _ _ "gc " " gc %s") by reflexivity.
  next_statement.
  rewrite (spaced_optional_some _ _ _ "prefix " " prefix %s") by reflexivity.
  next_statement.
  rewrite (spaced_optional_some _ _ _ "prologue " " prologue %s") by reflexivity.
  next_statement.
  rewrite (spaced_optional_some _ _ _ "personality " " personality %s")
    by reflexivity.
  rewrite !spaced_app, !spaced_singleton, !append_assoc.
  reflexivity.
Qed.

Lemma range_index_ext {A} (body body' : nat → A → string → string) i l buf :
  (∀ i a b, body i a b = body' i a b) →
  range_index body i l buf = range_index body' i l buf.
Proof.
  intros Hb. revert i buf. induction l as [|a l IH]; intros i buf; [done|].
  cbn [range_index]. by rewrite Hb, IH.
Qed.

Lemma range_index_fold {A} (g : A → string) l i buf :
  range_index (λ _ a buf, buf +:+ g a) i l buf
  = buf +:+ fold_right String.append "" (g <$> l).
Proof.
  revert i buf. induction l as [|a l IH]; intros i buf; cbn [range_index].
  - cbn [fmap list_fmap fold_right]. by rewrite append_nil_r.
  - rewrite IH. cbn [fmap list_fmap fold_right]. by rewrite append_assoc.
Qed.

(** The statements of [bodyString] print the body. *)
Lemma bodyString_text `{Printer} σ f : bodyString σ f = body_text σ f.
Proof.
  unfold body_text, bodyString.
  rewrite (range_index_ext _ (λ i block buf,
    WriteString (if negb (i =? 0)%nat then WriteString buf LF else buf)
      (Block_LLString σ block +:+ LF))) by reflexivity.
  rewrite range_index_join.
  rewrite (range_index_ext _ (λ _ u buf, buf +:+ TAB +:+ String_ u +:+ LF))
    by reflexivity.
  rewrite range_index_fold. unfold WriteString.
  destruct (UseListOrders f) as [|u us]; cbn [length Nat.ltb Nat.leb];
    case_decide; try done; by rewrite !append_assoc.
Qed.

(** ** Local-ID assignment *)

Lemma AssignIDs_declaration f σ : Blocks f = [] → AssignIDs f σ = (σ, None).
Proof. intros Hb. unfold AssignIDs. by rewrite Hb. Qed.

(** C1, as amended.  On a function without basic blocks [AssignIDs]
    succeeds and assigns nothing.  On a function with at least one basic
    block whose anonymous locals are distinct objects, [AssignIDs] succeeds
    exactly when every anonymous local carries 0 or the position it has in
    the fixed order (parameters, then for each block its identity, its
    non-void instruction results and its non-void terminator result), and
    then the anonymous locals carry 0, 1, ..., N-1 in that order, no name
    has changed and no other object has been written. *)
Theorem AssignIDs_dense f σ :
  (Blocks f = [] → AssignIDs f σ = (σ, None))
  ∧ (Blocks f ≠ [] →
     NoDup (anonymous σ (numbering_order f)) →
     Z.of_nat (length (anonymous σ (numbering_order f))) < 2 ^ 63 →
     ((AssignIDs f σ).2 = None ↔ consistent σ 0 (numbering_order f) = true)
     ∧ (∀ err, (AssignIDs f σ).2 = Some err →
               ∃ want got, err = ErrInvalidLocalID (FuncIdent f) want got)
     ∧ (consistent σ 0 (numbering_order f) = true →
        anonymous_IDs (AssignIDs f σ).1 (numbering_order f)
          = seqZ 0 (Z.of_nat (length (anonymous σ (numbering_order f))))
        ∧ (∀ n, LocalName ((AssignIDs f σ).1 n) = LocalName (σ n))
        ∧ (∀ n, n ∉ anonymous σ (numbering_order f) →
                (AssignIDs f σ).1 n = σ n))).
Proof.
  split; [apply AssignIDs_declaration|]. intros Hb Hnd Hlen.
  rewrite AssignIDs_order by done. cbn [fst snd].
  assert (Hdense : consistent σ 0 (numbering_order f) = true →
    (range (setName_at f) (numbering_order f) (σ, 0)).2 = None
    ∧ anonymous_IDs (range (setName_at f) (numbering_order f) (σ, 0)).1.1
        (numbering_order f)
      = seqZ 0 (Z.of_nat (length (anonymous σ (numbering_order f))))).
  { intros Hc.
    destruct (range_setName_dense f (numbering_order f) σ 0)
      as (σ' & Hrun & Hids); [done | lia | lia | done |].
    by rewrite Hrun. }
  split; [split|split].
  - intros Hok. destruct (consistent σ 0 (numbering_order f)) eqn:Hc; [done|].
    by destruct (range_setName_stale f (numbering_order f) σ 0); try lia.
  - intros Hc. by apply Hdense.
  - intros err. apply range_setName_error.
  - intros Hc. split; [by apply Hdense|]. split.
    + intros n. apply (range_setName_name f _ (σ, 0)).
    + intros n. apply range_setName_frame.
Qed.

(** C7.  In a function with at least one basic block, let the anonymous
    local [n] come after the locals [pre] in the fixed order, let the pass
    get to [n] without error, and let [n] carry an ID other than 0.  The
    next expected value is the number of anonymous locals before [n] (as an
    [int64]).  When the ID of [n] is that value the pass goes on after [n];
    otherwise [AssignIDs] returns the invalid-local-ID error of the function
    with the expected value and the ID found. *)
Theorem AssignIDs_explicit_ID f σ pre n post :
  Blocks f ≠ [] →
  numbering_order f = pre ++ n :: post →
  (range (setName_at f) pre (σ, 0)).2 = None →
  n ∉ pre →
  IsUnnamed (σ n) = true →
  ID (σ n) ≠ 0 →
  let expected := wrap64 (Z.of_nat (length (anonymous σ pre))) in
  (ID (σ n) ≠ expected →
     (AssignIDs f σ).2
       = Some (ErrInvalidLocalID (FuncIdent f) expected (ID (σ n)))
     ∧ condition_of (ErrInvalidLocalID (FuncIdent f) expected (ID (σ n)))
       = Some InvalidLocalID)
  ∧ (ID (σ n) = expected →
     (setName_at f n ((range (setName_at f) pre (σ, 0)).1)).2 = None).
Proof.
  intros Hb Hord Hpre Hn Hu H0 expected.
  pose proof (range_setName_counter f pre σ 0 eq_refl Hpre) as Hid.
  pose proof (range_setName_frame f pre σ 0 n) as Hfr.
  rewrite AssignIDs_order, Hord, range_app by done.
  cbn [fst snd range]. unfold and_then.
  destruct (range (setName_at f) pre (σ, 0)) as [[σ1 id1] err].
  cbn [fst snd] in *. subst err. rewrite Z.add_0_l in Hid. fold expected in Hid.
  assert (Hσ1 : σ1 n = σ n) by (apply Hfr; rewrite elem_of_anonymous; tauto).
  subst id1. split.
  - intros Hne. rewrite setName_at_fail by (by rewrite Hσ1).
    by rewrite Hσ1.
  - intros Heq. by rewrite setName_at_pass by (rewrite Hσ1; auto).
Qed.

(** C8, as amended.  On a function whose anonymous locals are distinct
    objects, a second [AssignIDs] on the identifiers the first one left
    ends as the first one did, with success when the first succeeded and
    with the same error otherwise, and leaves every identifier as the first
    one left it. *)
Theorem AssignIDs_twice f σ :
  NoDup (anonymous σ (numbering_order f)) →
  (AssignIDs f (AssignIDs f σ).1).2 = (AssignIDs f σ).2
  ∧ ∀ n, (AssignIDs f (AssignIDs f σ).1).1 n = (AssignIDs f σ).1 n.
Proof.
  intros Hnd. destruct (decide (Blocks f = [])) as [Hb|Hb].
  { by rewrite !AssignIDs_declaration. }
  rewrite !AssignIDs_order by done. cbn [fst snd].
  by apply range_setName_again.
Qed.

(** C10.  In a function with at least one basic block, let the anonymous
    local [n] come after the locals [pre] in the fixed order, let the pass
    get to [n] without error, and let [n] carry the ID 0.  Then [setName]
    accepts [n] at every value of the counter, [AssignIDs] goes on with the
    locals after [n], so that it returns no error for [n], and [n] is given
    the next value of the sequence. *)
Theorem AssignIDs_zero_ID f σ pre n post :
  Blocks f ≠ [] →
  numbering_order f = pre ++ n :: post →
  (range (setName_at f) pre (σ, 0)).2 = None →
  n ∉ pre →
  IsUnnamed (σ n) = true →
  ID (σ n) = 0 →
  let expected := wrap64 (Z.of_nat (length (anonymous σ pre))) in
  let σ1 := (range (setName_at f) pre (σ, 0)).1.1 in
  let rest :=
    range (setName_at f) post (SetID σ1 n expected, wrap64 (expected + 1)) in
  (∀ id, setName_at f n (σ, id) = ((SetID σ n id, wrap64 (id + 1)), None))
  ∧ AssignIDs f σ = (rest.1.1, rest.2)
  ∧ (n ∉ post → ID ((AssignIDs f σ).1 n) = expected).
Proof.
  intros Hb Hord Hpre Hn Hu H0 expected σ1 rest.
  split; [intros id; apply setName_at_pass; auto|].
  pose proof (range_setName_counter f pre σ 0 eq_refl Hpre) as Hid.
  pose proof (range_setName_frame f pre σ 0 n) as Hfr.
  assert (Hrun : AssignIDs f σ = (rest.1.1, rest.2)).
  { rewrite AssignIDs_order, Hord, range_app by done.
    subst rest σ1. unfold and_then.
    destruct (range (setName_at f) pre (σ, 0)) as [[σ1 id1] err].
    cbn [fst snd range] in *. subst err. rewrite Z.add_0_l in Hid.
    fold expected in Hid. subst id1. unfold and_then.
    rewrite setName_at_pass;
      by rewrite ?Hfr by (rewrite elem_of_anonymous; tauto); auto. }
  split; [done|]. intros Hpost. rewrite Hrun. cbn [fst]. subst rest.
  rewrite range_setName_frame by (rewrite elem_of_anonymous; tauto).
  apply SetID_eq.
Qed.

Lemma setName_at_FuncIdent f f' n s :
  FuncIdent f = FuncIdent f' → setName_at f n s = setName_at f' n s.
Proof. intros Hf. destruct s as [σ id]. by rewrite !setName_at_eq, Hf. Qed.

Lemma inst_numbered_void insts :
  concat (inst_numbered <$> filter (λ inst, void_call inst = false) insts)
  = concat (inst_numbered <$> insts).
Proof.
  induction insts as [|inst insts IH]; [done|]. rewrite filter_cons.
  case_decide as Hv; cbn [fmap list_fmap concat]; rewrite IH; [done|].
  destruct inst as [n t|n t|]; cbn in *; [|done..].
  by destruct (Equal_Void t).
Qed.

Lemma block_numbered_void block :
  block_numbered (without_void block) = block_numbered block.
Proof.
  unfold block_numbered, without_void. cbn [block_self Insts Term].
  rewrite inst_numbered_void. do 2 f_equal.
  destruct (Term block) as [[n t|n t|]|]; cbn; try done.
  by destruct (Equal_Void t) eqn:Ht; cbn; rewrite ?Ht.
Qed.

(** C6.  A call instruction or invoke terminator of void type leaves the
    identifiers and the counter as they are; [AssignIDs] ends on a function
    as it ends on the function without its void calls and invokes.  In a
    function whose one block has a void call as only instruction, before a
    terminator without result, the numbering goes over the parameters and
    the identity of the block and no other local: the identifier of the
    call is not written, and an anonymous block is given the number of
    anonymous parameters when the numbering succeeds. *)
Theorem AssignIDs_skips_void f σ :
  (∀ n s, inst_body f (InstCall n VoidType) s = (s, None)
            ∧ term_body f (Some (TermInvoke n VoidType)) s = (s, None))
  ∧ AssignIDs f σ = AssignIDs (set_Blocks (without_void <$> Blocks f) f) σ
  ∧ ∀ block call,
      Blocks f = [block] →
      Insts block = [InstCall call VoidType] →
      Term block = Some TermNoValue →
      numbering_order f = (param_self <$> Params f) ++ [block_self block]
      ∧ (call ∉ numbering_order f → (AssignIDs f σ).1 call = σ call)
      ∧ (IsUnnamed (σ (block_self block)) = true →
         NoDup (anonymous σ (numbering_order f)) →
         Z.of_nat (length (anonymous σ (numbering_order f))) < 2 ^ 63 →
         consistent σ 0 (numbering_order f) = true →
         (AssignIDs f σ).2 = None
         ∧ ID ((AssignIDs f σ).1 (block_self block))
           = Z.of_nat (length (anonymous σ (param_self <$> Params f)))).
Proof.
  split; [done|]. split.
  { destruct (decide (Blocks f = [])) as [Hb|Hb].
    - rewrite !AssignIDs_declaration; [done | | done]. cbn. by rewrite Hb.
    - rewrite !AssignIDs_order; [|cbn; by destruct (Blocks f)|done].
      assert (Hord : numbering_order (set_Blocks (without_void <$> Blocks f) f)
                     = numbering_order f).
      { unfold numbering_order. cbn [Params Blocks set_Blocks]. f_equal.
        rewrite <-list_fmap_compose. f_equal. apply list_fmap_ext.
        intros _ b _. apply block_numbered_void. }
      rewrite Hord.
      by rewrite (range_ext (setName_at f)
                    (setName_at (set_Blocks (without_void <$> Blocks f) f)))
        by (intros; by apply setName_at_FuncIdent). }
  intros block call Hbs Hinsts Hterm.
  assert (Hord : numbering_order f
                 = (param_self <$> Params f) ++ [block_self block]).
  { unfold numbering_order. rewrite Hbs. cbn [fmap list_fmap concat].
    unfold block_numbered. by rewrite Hinsts, Hterm. }
  assert (Hb : Blocks f ≠ []) by by rewrite Hbs.
  split; [done|]. split.
  { intros Hcall. rewrite AssignIDs_order by done. cbn [fst].
    apply range_setName_frame. rewrite elem_of_anonymous. tauto. }
  intros Hu Hnd Hlen Hc. rewrite AssignIDs_order by done. cbn [fst snd].
  destruct (range_setName_dense f (numbering_order f) σ 0)
    as (σ' & Hrun & Hids); [done | lia | lia | done |].
  rewrite Hrun. cbn [fst snd]. split; [done|].
  assert (Hnames : ∀ m, LocalName (σ' m) = LocalName (σ m)).
  { intros m. pose proof (range_setName_name f (numbering_order f) (σ, 0) m).
    by rewrite Hrun in *. }
  unfold anonymous_IDs in Hids. rewrite (anonymous_ext σ σ') in Hids by done.
  rewrite Hord, anonymous_app, anonymous_cons, Hu in Hids.
  rewrite length_app, fmap_app in Hids. cbn [length fmap list_fmap] in Hids.
  apply (f_equal (λ l, l !! length (anonymous σ (param_self <$> Params f))))
    in Hids.
  rewrite lookup_app_r, length_fmap, Nat.sub_diag in Hids
    by (by rewrite length_fmap).
  rewrite lookup_seqZ_lt in Hids by (cbn [length]; lia).
  cbn [lookup list_lookup] in Hids. injection Hids as ->. lia.
Qed.

(** ** The printer of functions *)

Lemma fields_between {A} (a : list A) v d c x1 x2 x3 x4 x5 s r :
  a ++ [v] ++ d ++ [c] ++ x1 ++ x2 ++ x3 ++ x4 ++ x5 ++ [s] ++ r
  = a ++ [v] ++ d ++ [c] ++ (x1 ++ x2 ++ x3 ++ x4 ++ x5) ++ [s] ++ r.
Proof. by rewrite <-!(assoc_L (++)). Qed.

(** C3.  The header [headerString] prints is the sequence of the fields in
    the fixed order (preemption, visibility, DLL storage class, calling
    convention, return attributes, return type, identifier and parameter
    list, unnamed address, function attributes, section, comdat, GC,
    prefix, prologue, personality), the absent ones left out and each one
    after one space.  Whatever the order in which visibility, calling
    convention and section are assigned, the function and so the header are
    the same, and the three fields come in that order. *)
Theorem headerString_fixed_order `{Printer} σ f :
  headerString σ f = spaced (header_fields σ f)
  ∧ ∀ v cc s,
      let f' := set_Visibility v (set_CallingConv cc (set_Section s f)) in
      set_Visibility v (set_Section s (set_CallingConv cc f)) = f'
      ∧ set_CallingConv cc (set_Visibility v (set_Section s f)) = f'
      ∧ set_CallingConv cc (set_Section s (set_Visibility v f)) = f'
      ∧ set_Section s (set_Visibility v (set_CallingConv cc f)) = f'
      ∧ set_Section s (set_CallingConv cc (set_Visibility v f)) = f'
      ∧ (v ≠ 0%N → cc ≠ 0%N → s ≠ "" →
         ∃ before between between' after,
           header_fields σ f'
           = before ++ [Visibility_String v] ++ between
             ++ [callingConvString cc] ++ between'
             ++ ["section " +:+ quote s] ++ after).
Proof.
  split; [apply headerString_text|]. intros v cc s f'.
  do 5 (split; [done|]). intros Hv Hcc Hs.
  unfold header_fields, f'. cbn [set_Visibility set_CallingConv set_Section
    FuncIdent Sig Params Blocks Linkage Preemption Visibility DLLStorageClass
    CallingConv ReturnAttrs UnnamedAddr FuncAttrs Section_ Comdat GC Prefix
    Prologue Personality].
  destruct (N.eqb_spec v 0) as [|_]; [done|].
  destruct (N.eqb_spec cc 0) as [|_]; [done|].
  destruct (String.eqb_spec s "") as [|_]; [done|]. cbn [negb optional].
  eexists _, _, _, _. apply fields_between.
Qed.

(** C5, as amended.  [LLString] on a function with at least one basic
    block first runs [AssignIDs].  When [AssignIDs] returns an error,
    [LLString] returns nothing: it panics with a value made of the
    identifier of the function and that error.  Otherwise it returns the
    definition printed with the identifiers [AssignIDs] left. *)
Theorem LLString_define `{Printer} f σ :
  Blocks f ≠ [] →
  LLString f σ =
    match AssignIDs f σ with
    | (σ', Some err) => (σ', Panics (PanicAssignIDs (Ident (FuncIdent f)) err))
    | (σ', None) => (σ', Returns (definition_text σ' f))
    end.
Proof.
  intros Hb. unfold LLString, definition_text.
  destruct (Blocks f) as [|b bs] eqn:Hbs; [done|]. cbn [length Nat.eqb].
  destruct (AssignIDs f σ) as [σ' [err|]]; [done|].
  rewrite spaced_optional, range_index_spaced, Fprintf_s.
  rewrite headerString_text, bodyString_text. unfold WriteString.
  do 2 f_equal. by rewrite !append_assoc.
Qed.


(** ** Lowering of constants *)

(** C4.  A constant of a type-checked variant lowered against a type whose
    variant does not match its shape gives the invalid-type error of that
    shape, a type mismatch, and leaves the generator and the heap as they
    are.  A boolean constant gives a type mismatch for every type other
    than the integer type of 1 bit, and against that type it lowers to
    [constant.True] or [constant.False]. *)
Theorem irConstant_type_checked `{Lowering} t old shape s :
  checked_shape old = Some shape →
  (shape_matches t shape = false →
     irConstant t old s = (s, Err (ErrInvalidType shape t))
     ∧ condition_of (ErrInvalidType shape t) = Some TypeMismatch)
  ∧ (∀ lit, old = ast_BoolConst lit →
       (t ≠ IntType 1 →
          ∃ err, irConstant t old s = (s, Err err)
                 ∧ condition_of err = Some TypeMismatch)
       ∧ (t = IntType 1 →
          irConstant t old s
          = (s, Ok (if boolLit lit then constant_True else constant_False)))).
Proof.
  intros Hshape. split.
  - intros Ht. split; [|done].
    destruct old; cbn in Hshape; simplify_eq; cbn [irConstant];
      unfold irBoolConst, irIntConst, irFloatConst, irNullConst,
        irStructConst, irArrayConst, irVectorConst;
      by destruct t.
  - intros lit ->. cbn [irConstant]. unfold irBoolConst. split.
    + intros Ht. destruct t as [| | n | | | | | | |];
        try (eexists; split; [reflexivity|done]).
      destruct (N.eqb_spec n 1) as [->|Hn]; [done|].
      eexists; split; [reflexivity|done].
    + intros ->. cbn. by destruct (boolLit lit).
Qed.

(** C9.  Against every type and in every state, a none-token constant
    lowers to [constant.None], a char-array constant to the char array of
    the bytes of its literal, a zero-initializer and an undef constant to
    the constant of the expected type, without reading the type and without
    error. *)
Theorem irConstant_unchecked `{Lowering} t s :
  irConstant t ast_NoneConst s = (s, Ok constant_None)
  ∧ (∀ Val, irConstant t (ast_CharArrayConst Val) s
            = (s, Ok (ConstCharArray (stringLitBytes Val))))
  ∧ irConstant t ast_ZeroInitializerConst s = (s, Ok (ConstZeroInitializer t))
  ∧ irConstant t ast_UndefConst s = (s, Ok (ConstUndef t)).
Proof. done. Qed.

Lemma fix_blocks_found c f blockName pre block post h :
  LocalName (idents h (block_self block)) = blockName →
  Forall (λ b, LocalName (idents h (block_self b)) ≠ blockName) pre →
  fix_blocks c f blockName (pre ++ block :: post) h
  = (mkHeap (next h) (idents h) (funcs h)
       (<[c := mkBlockAddress (BlockAddress_Func (blockaddrs h c)) block]>
          (blockaddrs h)), None).
Proof.
  intros Hblock Hpre. induction Hpre as [|b pre Hb Hpre IH]; cbn [app fix_blocks].
  - by rewrite (proj2 (String.eqb_eq _ _) Hblock).
  - by rewrite (proj2 (String.eqb_neq _ _) Hb).
Qed.

Lemma fix_blocks_missing c f blockName blocks h :
  Forall (λ b, LocalName (idents h (block_self b)) ≠ blockName) blocks →
  fix_blocks c f blockName blocks h
  = (h, Some (ErrLocateBlock blockName (GlobalName (FuncIdent f)))).
Proof.
  intros Hbs. induction Hbs as [|b bs Hb Hbs IH]; cbn [fix_blocks]; [done|].
  by rewrite (proj2 (String.eqb_neq _ _) Hb).
Qed.

(** C2.  Lowering a block address whose function is known returns a new
    block-address object [c] and appends it to [todo]; [c] holds the
    function and a new block that has the referenced name, the ID 0, no
    instruction and no terminator.  In every later heap in which [c] still
    holds that block under that name, [fixBlockAddressConst] puts in its
    place the first block of the function, in list order, whose name is
    the referenced name, and changes nothing else; when the function has no
    block of that name it changes nothing and returns the error that names
    the block and the function, a dangling block reference. *)
Theorem blockaddress_fixup `{Lowering} t old_Func old_Block gen h f :
  function gen (asm_global old_Func) = Ok f →
  ∃ c gen' h',
    irBlockAddressConst t old_Func old_Block (gen, h) = ((gen', h'), Ok c)
    ∧ irConstant t (ast_BlockAddressConst old_Func old_Block) (gen, h)
      = ((gen', h'), Ok (ConstBlockAddress c))
    ∧ todo gen' = todo gen ++ [c]
    ∧ BlockAddress_Func (blockaddrs h' c) = f
    ∧ idents h' (block_self (BlockAddress_Block (blockaddrs h' c)))
      = mkLocalIdent (asm_local old_Block) 0
    ∧ Insts (BlockAddress_Block (blockaddrs h' c)) = []
    ∧ Term (BlockAddress_Block (blockaddrs h' c)) = None
    ∧ ∀ h1,
        blockaddrs h1 c = blockaddrs h' c →
        LocalName (idents h1 (block_self (BlockAddress_Block (blockaddrs h' c))))
        = asm_local old_Block →
        (∀ pre block post,
           Blocks (funcs h1 f) = pre ++ block :: post →
           LocalName (idents h1 (block_self block)) = asm_local old_Block →
           Forall (λ b, LocalName (idents h1 (block_self b))
                        ≠ asm_local old_Block) pre →
           ∃ h2,
             fixBlockAddressConst c h1 = (h2, None)
             ∧ blockaddrs h2 c = mkBlockAddress f block
             ∧ (∀ c', c' ≠ c → blockaddrs h2 c' = blockaddrs h1 c')
             ∧ idents h2 = idents h1 ∧ funcs h2 = funcs h1)
        ∧ (Forall (λ b, LocalName (idents h1 (block_self b))
                        ≠ asm_local old_Block) (Blocks (funcs h1 f)) →
           fixBlockAddressConst c h1
           = (h1, Some (ErrLocateBlock (asm_local old_Block)
                          (GlobalName (FuncIdent (funcs h1 f)))))
           ∧ condition_of (ErrLocateBlock (asm_local old_Block)
                             (GlobalName (FuncIdent (funcs h1 f))))
             = Some DanglingBlockReference).
Proof.
  intros Hf. eexists _, _, _.
  split; [unfold irBlockAddressConst; rewrite Hf; reflexivity|].
  split; [cbn [irConstant]; unfold irBlockAddressConst; rewrite Hf;
          reflexivity|].
  cbn [todo blockaddrs idents funcs next new_BasicBlock NewBlockAddress
    fst snd].
  rewrite !fn_lookup_insert. cbn [BlockAddress_Func BlockAddress_Block
    block_self Insts Term]. rewrite ?fn_lookup_insert.
  do 5 (split; [done|]).
  intros h1 Hc Hname. unfold fixBlockAddressConst. rewrite Hc.
  cbn [BlockAddress_Func BlockAddress_Block block_self]. rewrite Hname.
  split.
  - intros pre block post Hblocks Hblock Hpre. rewrite Hblocks.
    rewrite fix_blocks_found by done. eexists. split; [done|].
    cbn [blockaddrs idents funcs]. rewrite Hc. cbn [BlockAddress_Func].
    rewrite fn_lookup_insert. split; [done|]. split; [|done].
    intros c' Hc'. by rewrite fn_lookup_insert_ne.
  - intros Hnone. by rewrite fix_blocks_missing.
Qed.

(** ** The properties on the sample values *)

Lemma NoDup_sample :
  NoDup (anonymous sample_store (numbering_order sample_func)).
Proof. apply (bool_decide_unpack _). vm_compute. exact I. Defined.

(** The claim C1 as the specification words it fails on a function whose
    add instruction carries the stale ID 7 at position 2: [AssignIDs]
    returns an error and the anonymous locals carry 0, 1, 7, 0. *)
Lemma AssignIDs_stale_not_dense :
  Blocks sample_func ≠ []
  ∧ (AssignIDs sample_func stale_store).2
    = Some (ErrInvalidLocalID (FuncIdent sample_func) 2 7)
  ∧ anonymous_IDs (AssignIDs sample_func stale_store).1
      (numbering_order sample_func) = [0; 1; 7; 0]
  ∧ anonymous_IDs (AssignIDs sample_func stale_store).1
      (numbering_order sample_func)
    ≠ seqZ 0 (Z.of_nat (length (anonymous stale_store
                                  (numbering_order sample_func)))).
Proof.
  split; [done|]. split; [by vm_compute|]. split; [by vm_compute|].
  by vm_compute.
Qed.

(** C1 on the sample function: the parameters, the first block, the add
    and the call of type i32 are numbered 0, 1, 2, 3. *)
Lemma AssignIDs_dense_sample :
  Blocks sample_func ≠ []
  ∧ consistent sample_store 0 (numbering_order sample_func) = true
  ∧ (AssignIDs sample_func sample_store).2 = None
  ∧ anonymous_IDs (AssignIDs sample_func sample_store).1
      (numbering_order sample_func) = [0; 1; 2; 3].
Proof.
  assert (Hb : Blocks sample_func ≠ []) by done.
  assert (Hc : consistent sample_store 0 (numbering_order sample_func) = true)
    by reflexivity.
  destruct (AssignIDs_dense sample_func sample_store) as [_ Hdef].
  destruct (Hdef Hb NoDup_sample) as (Hok & _ & Hids); [by vm_compute|].
  split; [exact Hb|]. split; [exact Hc|].
  split; [exact (proj2 Hok Hc)|]. exact (proj1 (Hids Hc)).
Defined.

(** C7 on the sample function with the stale ID 7 on the add, the third
    anonymous local: 2 was expected. *)
Lemma AssignIDs_explicit_ID_sample :
  (AssignIDs sample_func stale_store).2
  = Some (ErrInvalidLocalID (FuncIdent sample_func) 2 7).
Proof.
  refine (proj1 (proj1 (AssignIDs_explicit_ID sample_func stale_store
    [1; 2; 3]%positive 4%positive [6; 7]%positive _ _ _ _ _ _) _)).
  - done.
  - reflexivity.
  - reflexivity.
  - apply (bool_decide_unpack _). vm_compute. exact I.
  - reflexivity.
  - by vm_compute.
  - by vm_compute.
Defined.

(** The claim C8 as the specification words it fails on a function whose
    block carries the stale ID 3: the first call does not succeed, nor does
    the second. *)
Lemma AssignIDs_twice_stale :
  (AssignIDs stale_block_func stale_block_store).2
  = Some (ErrInvalidLocalID (FuncIdent stale_block_func) 0 3)
  ∧ (AssignIDs stale_block_func
       (AssignIDs stale_block_func stale_block_store).1).2
    = Some (ErrInvalidLocalID (FuncIdent stale_block_func) 0 3).
Proof. split; by vm_compute. Qed.

(** C8 on the sample function. *)
Lemma AssignIDs_twice_sample :
  NoDup (anonymous sample_store (numbering_order sample_func))
  ∧ (AssignIDs sample_func (AssignIDs sample_func sample_store).1).2
    = (AssignIDs sample_func sample_store).2
  ∧ ∀ n, (AssignIDs sample_func (AssignIDs sample_func sample_store).1).1 n
         = (AssignIDs sample_func sample_store).1 n.
Proof.
  split; [exact NoDup_sample|].
  exact (AssignIDs_twice sample_func sample_store NoDup_sample).
Defined.

(** C10 on the sample function: the add carries the ID 0 at position 2,
    passes and is given 2. *)
Lemma AssignIDs_zero_ID_sample :
  ID (sample_store 4%positive) = 0
  ∧ (AssignIDs sample_func sample_store).2 = None
  ∧ ID ((AssignIDs sample_func sample_store).1 4%positive) = 2.
Proof.
  split; [reflexivity|]. split; [reflexivity|].
  refine (proj2 (proj2 (AssignIDs_zero_ID sample_func sample_store
    [1; 2; 3]%positive 4%positive [6; 7]%positive _ _ _ _ _ _)) _).
  - done.
  - reflexivity.
  - reflexivity.
  - apply (bool_decide_unpack _). vm_compute. exact I.
  - reflexivity.
  - reflexivity.
  - apply (bool_decide_unpack _). vm_compute. exact I.
Defined.

(** C6 on the function of one parameter and one block of a void call: the
    parameter is numbered 0 and the block 1, the call keeps its
    identifier. *)
Lemma AssignIDs_skips_void_sample :
  (AssignIDs void_call_func fresh_store).2 = None
  ∧ ID ((AssignIDs void_call_func fresh_store).1 1%positive) = 1
  ∧ (AssignIDs void_call_func fresh_store).1 2%positive
    = fresh_store 2%positive.
Proof.
  destruct (AssignIDs_skips_void void_call_func fresh_store)
    as (_ & _ & Hblock).
  destruct (Hblock (mkBlock 1 [InstCall 2 VoidType] (Some TermNoValue))
              2%positive eq_refl eq_refl eq_refl) as (_ & Hcall & Hnum).
  destruct Hnum as [Hok Hid].
  - reflexivity.
  - apply (bool_decide_unpack _). vm_compute. exact I.
  - by vm_compute.
  - reflexivity.
  - split; [exact Hok|]. split; [exact Hid|]. apply Hcall.
    apply (bool_decide_unpack _). vm_compute. exact I.
Defined.

(** Why the anonymous locals are taken to be distinct objects: on a
    function that holds the same parameter object twice the first call
    succeeds and leaves that object with the ID 1 at both places, and the
    second call fails. *)
Remark AssignIDs_shared_parameter :
  let f := plain_func [mkParam 1 (IntType 32); mkParam 1 (IntType 32)]
             [mkBlock 2 [] (Some TermNoValue)] in
  (AssignIDs f fresh_store).2 = None
  ∧ anonymous_IDs (AssignIDs f fresh_store).1 (numbering_order f) = [1; 1; 2]
  ∧ (AssignIDs f (AssignIDs f fresh_store).1).2
    = Some (ErrInvalidLocalID (FuncIdent f) 0 1).
Proof. split; [|split]; by vm_compute. Qed.

(** C3 on the function of one parameter, made hidden, fastcc and of
    section [.text]: the three fields are printed in that order. *)
Lemma headerString_fixed_order_sample :
  let f' := set_Visibility 2 (set_CallingConv 8
              (set_Section ".text" void_call_func)) in
  headerString fresh_store f'
  = " hidden fastcc void @f(i32 %0) section " +:+ DQ +:+ ".text" +:+ DQ
  ∧ set_Section ".text" (set_CallingConv 8 (set_Visibility 2 void_call_func))
    = f'
  ∧ ∃ before between between' after,
      header_fields fresh_store f'
      = before ++ ["hidden"] ++ between ++ ["fastcc"] ++ between'
        ++ ["section " +:+ DQ +:+ ".text" +:+ DQ] ++ after.
Proof.
  intros f'.
  destruct (headerString_fixed_order fresh_store void_call_func)
    as [_ Hset].
  destruct (Hset 2%N 8%N ".text") as (_ & _ & _ & _ & Horder & Hfields).
  split; [|split; [exact Horder|]].
  - destruct (headerString_fixed_order fresh_store f') as [Htext _].
    rewrite Htext. reflexivity.
  - apply Hfields; done.
Defined.

(** The claim C5 as the specification words it fails on a function whose
    block carries the stale ID 3: [LLString] returns no result, it panics
    with the error of [AssignIDs]. *)
Lemma LLString_stale_panics :
  Blocks stale_block_func ≠ []
  ∧ (AssignIDs stale_block_func stale_block_store).2
    = Some (ErrInvalidLocalID (FuncIdent stale_block_func) 0 3)
  ∧ (LLString stale_block_func stale_block_store).2
    = Panics (PanicAssignIDs "@f"
                (ErrInvalidLocalID (FuncIdent stale_block_func) 0 3))
  ∧ ∀ text, (LLString stale_block_func stale_block_store).2 ≠ Returns text.
Proof.
  split; [done|]. split; [by vm_compute|]. split; [by vm_compute|].
  intros text. by vm_compute.
Qed.

(** C5 on the function of one block of a void call: the definition is
    printed with the identifiers [AssignIDs] left, and on the function with
    the stale ID [LLString] panics. *)
Lemma LLString_define_sample :
  (LLString void_call_func fresh_store).2
  = Returns ("define void @f(i32 %0) {" +:+ LF +:+ "1:" +:+ LF +:+ "}")
  ∧ (LLString stale_block_func stale_block_store).2
    = Panics (PanicAssignIDs "@f"
                (ErrInvalidLocalID (FuncIdent stale_block_func) 0 3)).
Proof.
  split.
  - rewrite (LLString_define void_call_func fresh_store) by done.
    reflexivity.
  - rewrite (LLString_define stale_block_func stale_block_store) by done.
    reflexivity.
Defined.

(** C4 on a struct constant against i32, and on the boolean [true] against
    i8 and against i1. *)
Lemma irConstant_type_checked_sample :
  irConstant (IntType 32) (ast_StructConst []) (sample_generator, sample_heap)
  = ((sample_generator, sample_heap),
     Err (ErrInvalidType ShapeStruct (IntType 32)))
  ∧ (∃ err,
       irConstant (IntType 8) (ast_BoolConst "true")
         (sample_generator, sample_heap)
       = ((sample_generator, sample_heap), Err err)
       ∧ condition_of err = Some TypeMismatch)
  ∧ irConstant (IntType 1) (ast_BoolConst "true")
      (sample_generator, sample_heap)
    = ((sample_generator, sample_heap), Ok constant_True).
Proof.
  split; [|split].
  - exact (proj1 (proj1 (irConstant_type_checked (IntType 32)
      (ast_StructConst []) ShapeStruct (sample_generator, sample_heap)
      eq_refl) eq_refl)).
  - refine (proj1 (proj2 (irConstant_type_checked (IntType 8)
      (ast_BoolConst "true") ShapeBool (sample_generator, sample_heap)
      eq_refl) "true" eq_refl) _). done.
  - exact (proj2 (proj2 (irConstant_type_checked (IntType 1)
      (ast_BoolConst "true") ShapeBool (sample_generator, sample_heap)
      eq_refl) "true" eq_refl) eq_refl).
Defined.

(** C2 on the block address of [%loop] in [@f]: the new constant is queued
    and holds a block of that name only, the fixup puts the block [loop]
    of [@f] in its place; with [%nope] the fixup returns the error. *)
Lemma blockaddress_fixup_sample :
  function sample_generator (asm_global "@f") = Ok 10%positive
  ∧ ∃ c gen' h',
      irBlockAddressConst (IntType 8) "@f" "%loop"
        (sample_generator, sample_heap) = ((gen', h'), Ok c)
      ∧ todo gen' = [c]
      ∧ BlockAddress_Func (blockaddrs h' c) = 10%positive
      ∧ ∃ h2,
          fixBlockAddressConst c h' = (h2, None)
          ∧ blockaddrs h2 c
            = mkBlockAddress 10 (mkBlock 21 [] (Some TermNoValue)).
Proof.
  assert (Hf : function sample_generator (asm_global "@f") = Ok 10%positive)
    by reflexivity.
  split; [exact Hf|].
  destruct (blockaddress_fixup (IntType 8) "@f" "%loop" sample_generator
              sample_heap 10%positive Hf)
    as (c & gen' & h' & Hlower & _ & Htodo & Hfunc & Hident & _ & _ & Hfix).
  exists c, gen', h'. split; [exact Hlower|]. split; [exact Htodo|].
  split; [exact Hfunc|].
  injection Hlower as <- <- <-.
  destruct (Hfix _ eq_refl eq_refl) as [Hfound _].
  destruct (Hfound [mkBlock 20 [] (Some TermNoValue)]
              (mkBlock 21 [] (Some TermNoValue)) [] eq_refl eq_refl)
    as (h2 & Hh2 & Hc & _).
  - repeat constructor. by vm_compute.
  - exists h2. split; [exact Hh2 | exact Hc].
Defined.

(** With a name no block of the function has, the fixup returns the error
    that names the block and the function. *)
Example fixBlockAddressConst_nope :
  let r := irBlockAddressConst (IntType 8) "@f" "%nope"
             (sample_generator, sample_heap) in
  (fixBlockAddressConst 101 r.1.2).2 = Some (ErrLocateBlock "nope" "f").
Proof. by vm_compute. Qed.

(** * Further properties *)

(** ** [AssignIDs] and [LLString] *)

(** X1.  Whatever the function and whether it succeeds or fails,
    [AssignIDs] never changes a name, so that a local stays named or
    anonymous, and it writes to no object but the anonymous locals of the
    fixed order: a named local keeps its ID, and so does every object that
    is not a local of the function. *)
Theorem AssignIDs_preserves f σ :
  (∀ n, LocalName ((AssignIDs f σ).1 n) = LocalName (σ n))
  ∧ (∀ n, IsUnnamed ((AssignIDs f σ).1 n) = IsUnnamed (σ n))
  ∧ (∀ n, n ∉ anonymous σ (numbering_order f) → (AssignIDs f σ).1 n = σ n).
Proof.
  assert (Hname : ∀ n, LocalName ((AssignIDs f σ).1 n) = LocalName (σ n)).
  { intros n. destruct (decide (Blocks f = [])) as [Hb|Hb].
    - by rewrite AssignIDs_declaration.
    - rewrite AssignIDs_order by done.
      apply (range_setName_name f _ (σ, 0)). }
  split; [done|]. split; [intros n; by apply IsUnnamed_name|].
  intros n Hn. destruct (decide (Blocks f = [])) as [Hb|Hb].
  - by rewrite AssignIDs_declaration.
  - rewrite AssignIDs_order by done. by apply range_setName_frame.
Qed.

(** X2.  A failed [AssignIDs] is not undone.  When the pass stops at the
    anonymous local [n] because of its ID, the anonymous locals before [n],
    if they are distinct objects, carry 0, 1, ... as after a success, while
    [n] and every object that is not an anonymous local before [n] keep the
    identifier they had. *)
Theorem AssignIDs_failure_partial f σ pre n post :
  Blocks f ≠ [] →
  numbering_order f = pre ++ n :: post →
  (range (setName_at f) pre (σ, 0)).2 = None →
  n ∉ pre →
  IsUnnamed (σ n) = true →
  ID (σ n) ≠ 0 →
  ID (σ n) ≠ Z.of_nat (length (anonymous σ pre)) →
  NoDup (anonymous σ pre) →
  Z.of_nat (length (anonymous σ pre)) < 2 ^ 63 →
  (AssignIDs f σ).2 ≠ None
  ∧ anonymous_IDs (AssignIDs f σ).1 pre
    = seqZ 0 (Z.of_nat (length (anonymous σ pre)))
  ∧ (AssignIDs f σ).1 n = σ n
  ∧ (∀ m, m ∉ anonymous σ pre → (AssignIDs f σ).1 m = σ m).
Proof.
  intros Hb Hord Hpre Hn Hu H0 Hne Hnd Hlen.
  assert (Hc : consistent σ 0 pre = true).
  { destruct (consistent σ 0 pre) eqn:Hc; [done|].
    by destruct (range_setName_stale f pre σ 0); try lia. }
  destruct (range_setName_dense f pre σ 0) as (σ' & Hrun & Hids);
    [done | lia | lia | done |].
  pose proof (range_setName_frame f pre σ 0) as Hfr. rewrite Hrun in Hfr.
  cbn [fst] in Hfr.
  assert (Hσ' : (AssignIDs f σ).1 = σ' ∧ (AssignIDs f σ).2 ≠ None).
  { rewrite AssignIDs_order, Hord, range_app by done. unfold and_then.
    rewrite Hrun. cbn [range]. unfold and_then.
    rewrite setName_at_fail; [done|..]; rewrite Hfr; try done; try lia.
    all: rewrite elem_of_anonymous; tauto. }
  destruct Hσ' as [-> Hfail]. split; [done|]. split; [done|].
  split; [apply Hfr; rewrite elem_of_anonymous; tauto | apply Hfr].
Qed.

Lemma LLString_returns_iff `{Printer} f σ :
  (∃ text, (LLString f σ).2 = Returns text) ↔ (AssignIDs f σ).2 = None.
Proof.
  unfold LLString. destruct (decide (Blocks f = [])) as [Hb|Hb].
  - rewrite AssignIDs_declaration by done. rewrite Hb. cbn.
    split; [done | eauto].
  - destruct (Blocks f) as [|b bs]; [done|]. cbn [length Nat.eqb].
    destruct (AssignIDs f σ) as [σ' [err|]]; cbn.
    + split; [intros [text Htext]; done | done].
    + split; [done | eauto].
Qed.

Lemma LLString_store `{Printer} f σ : (LLString f σ).1 = (AssignIDs f σ).1.
Proof.
  unfold LLString. destruct (decide (Blocks f = [])) as [Hb|Hb].
  - rewrite AssignIDs_declaration by done. by rewrite Hb.
  - destruct (Blocks f) as [|b bs] eqn:Hbs; [done|]. cbn [length Nat.eqb].
    by destruct (AssignIDs f σ) as [σ' [err|]].
Qed.

(** X3.  The only change [LLString] makes is the one [AssignIDs] makes:
    after it, the identifiers are those [AssignIDs] leaves, for a
    declaration the identifiers it was given, and it panics exactly when
    [AssignIDs] fails. *)
Theorem LLString_effect `{Printer} f σ :
  (LLString f σ).1 = (AssignIDs f σ).1
  ∧ (Blocks f = [] → (LLString f σ).1 = σ)
  ∧ ((∃ text, (LLString f σ).2 = Returns text) ↔ (AssignIDs f σ).2 = None)
  ∧ ((∃ v, (LLString f σ).2 = Panics v) ↔ (AssignIDs f σ).2 ≠ None).
Proof.
  pose proof (LLString_store f σ) as Hst.
  split; [done|]. split.
  { intros Hb. by rewrite Hst, AssignIDs_declaration. }
  split; [apply LLString_returns_iff|].
  pose proof (LLString_returns_iff f σ) as Hret.
  destruct ((LLString f σ).2) as [text|v] eqn:Hout.
  - assert ((AssignIDs f σ).2 = None) as -> by (apply Hret; eauto).
    split; [intros [v Hv]; done | done].
  - assert (Hfail : (AssignIDs f σ).2 ≠ None).
    { rewrite <-Hret. intros [text Htext]. done. }
    split; [done | eauto].
Qed.

(** X4.  Once [LLString] has returned on a function whose anonymous locals
    are distinct objects, it returns again on the identifiers it left, and
    leaves every identifier as it is: a function that has been printed can
    be printed again without panic. *)
Theorem LLString_again `{Printer} f σ text :
  NoDup (anonymous σ (numbering_order f)) →
  (LLString f σ).2 = Returns text →
  (∃ text', (LLString f (LLString f σ).1).2 = Returns text')
  ∧ ∀ n, (LLString f (LLString f σ).1).1 n = (LLString f σ).1 n.
Proof.
  intros Hnd Hret.
  assert (Hok : (AssignIDs f σ).2 = None) by (apply LLString_returns_iff; eauto).
  rewrite !LLString_store. rewrite LLString_returns_iff.
  destruct (decide (Blocks f = [])) as [Hb|Hb].
  { by rewrite !AssignIDs_declaration. }
  rewrite !AssignIDs_order in * by done. cbn [fst snd] in *.
  destruct (range_setName_again f (numbering_order f) σ 0
              (range (setName_at f) (numbering_order f) (σ, 0)).1.1)
    as [Herr Hsame]; [done..|].
  by rewrite Herr.
Qed.

(** X5.  On a function without basic blocks [LLString] never panics and
    never touches an identifier; it returns the declaration: [declare], the
    metadata attachments, then the linkage, then the header, each part
    after one space. *)
Theorem LLString_declare `{Printer} f σ :
  Blocks f = [] →
  LLString f σ
  = (σ, Returns ("declare"
                 +:+ spaced (String_ <$> Metadata f)
                 +:+ spaced (optional (negb (Linkage f =? 0)%N)
                               (Linkage_String (Linkage f)))
                 +:+ header_text σ f)).
Proof.
  intros Hb. unfold LLString. rewrite Hb. cbn [length Nat.eqb].
  rewrite spaced_optional, range_index_spaced, headerString_text.
  unfold WriteString. by rewrite !append_assoc.
Qed.

(** X6.  [bodyString] prints an opening brace and a line feed, the blocks,
    each followed by a line feed and two of them separated by one more line
    feed, then, only when there are use-list orders, a line feed and each
    order on a line of its own after a tabulation, then the closing
    brace. *)
Theorem bodyString_layout `{Printer} σ f :
  bodyString σ f
  = "{" +:+ LF
    +:+ join LF ((λ block, Block_LLString σ block +:+ LF) <$> Blocks f)
    +:+ (if decide (UseListOrders f = []) then "" else LF)
    +:+ fold_right String.append ""
          ((λ u, TAB +:+ String_ u +:+ LF) <$> UseListOrders f)
    +:+ "}".
Proof. apply bodyString_text. Qed.

(** ** Lowering of constants and the fixup *)

(** X7.  A global identifier lowers to the value the generator holds under
    its name, whatever the expected type, and fails with the
    unable-to-locate error, an unresolved symbol, exactly when the
    generator holds no value under that name; the state is left as it is
    in both cases.  In particular the value stored under a name is the one
    its identifier lowers to. *)
Theorem irConstant_global `{Lowering} t text gen h :
  (∀ v, gs gen !! asm_global text = Some v →
        irConstant t (ast_GlobalIdent text) (gen, h) = ((gen, h), Ok v))
  ∧ (gs gen !! asm_global text = None ↔
     irConstant t (ast_GlobalIdent text) (gen, h)
     = ((gen, h), Err (ErrLocateGlobal (asm_global text))))
  ∧ condition_of (ErrLocateGlobal (asm_global text)) = Some UnresolvedSymbol
  ∧ (∀ v, irConstant t (ast_GlobalIdent text)
            (mkGenerator (<[asm_global text := v]> (gs gen)) (todo gen), h)
          = ((mkGenerator (<[asm_global text := v]> (gs gen)) (todo gen), h),
             Ok v)).
Proof.
  cbn [irConstant fst gs]. split; [|split; [|split; [done|]]].
  - by intros v ->.
  - destruct (gs gen !! asm_global text) as [v|]; [|done].
    split; [done | intros [=]].
  - intros v. by rewrite lookup_insert_eq.
Qed.

Lemma lower_each_lowered {A} (lower_one : A → lower Constant) l acc s :
  match lower_each lower_one l acc s with
  | (s', Ok elems) =>
      ∃ cs, elems = acc ++ cs ∧ lowered lower_one s l cs s'
  | (s', Err err) =>
      ∃ pre e post cs s1,
        l = pre ++ e :: post
        ∧ lowered lower_one s pre cs s1
        ∧ lower_one e s1 = (s', Err err)
  end.
Proof.
  revert acc s. induction l as [|e l IH]; intros acc s; cbn [lower_each].
  { exists []. split; [by rewrite app_nil_r | constructor]. }
  destruct (lower_one e s) as [s1 [c|err]] eqn:He.
  - specialize (IH (acc ++ [c]) s1).
    destruct (lower_each lower_one l (acc ++ [c]) s1) as [s' [elems|err]].
    + destruct IH as (cs & -> & Hl). exists (c :: cs).
      split; [by rewrite <-(assoc_L (++)) | by econstructor].
    + destruct IH as (pre & e' & post & cs & s2 & -> & Hl & He').
      exists (e :: pre), e', post, (c :: cs), s2.
      split; [done|]. split; [by econstructor | done].
  - exists [], e, l, [], s. split; [done|]. split; [constructor | done].
Qed.

Lemma lowered_length {A} (lower_one : A → lower Constant) s l cs s' :
  lowered lower_one s l cs s' → length cs = length l.
Proof. induction 1; cbn [length]; congruence. Qed.

(** X8.  A struct, array or vector constant against a type of its variant
    lowers its elements from left to right, each one against its own
    declared type and in the state the one before left.  On success the
    constant holds the expected type and as many constants as the node has
    elements, in their order; the element types and the length of the
    expected type are never read.  The first element that fails ends the
    lowering with its error: no constant is returned, and the state is the
    one of that failure, not the one the lowering started from. *)
Theorem irConstant_aggregate `{Lowering} t old elems constructor s :
  aggregate_of t old = Some (elems, constructor) →
  match irConstant t old s with
  | (s', Ok c) =>
      ∃ cs, c = constructor cs
            ∧ length cs = length elems
            ∧ lowered (irTypeConst irConstant) s elems cs s'
  | (s', Err err) =>
      ∃ pre e post cs s1,
        elems = pre ++ e :: post
        ∧ lowered (irTypeConst irConstant) s pre cs s1
        ∧ irTypeConst irConstant e s1 = (s', Err err)
  end.
Proof.
  intros Hagg.
  assert (Hrun : irConstant t old s
                 = build constructor
                     (lower_each (irTypeConst irConstant) elems [] s)).
  { destruct old; try done; destruct t; try done; cbn in Hagg;
      by simplify_eq. }
  rewrite Hrun.
  pose proof (lower_each_lowered (irTypeConst irConstant) elems [] s) as Hl.
  destruct (lower_each (irTypeConst irConstant) elems [] s)
    as [s' [cs|err]]; cbn [build].
  - destruct Hl as (cs' & -> & Hl). exists cs'.
    split; [done|]. split; [by eapply lowered_length | done].
  - done.
Qed.

Lemma extends_refl s : extends s s.
Proof.
  unfold extends. do 2 (split; [done|]). split; [lia|]. split; [done|].
  exists []. split; [by rewrite app_nil_r | constructor].
Qed.

Lemma extends_trans s1 s2 s3 : extends s1 s2 → extends s2 s3 → extends s1 s3.
Proof.
  intros (Hgs & Hf & Hn & Hold & new & Htodo & Hnew)
         (Hgs' & Hf' & Hn' & Hold' & new' & Htodo' & Hnew').
  unfold extends. split; [congruence|]. split; [congruence|].
  split; [lia|]. split.
  - intros r Hr. destruct (Hold r Hr) as [<- <-]. apply Hold'. lia.
  - exists (new ++ new'). split.
    + by rewrite Htodo', Htodo, (assoc_L (++)).
    + apply Forall_app. split.
      * eapply Forall_impl; [exact Hnew|]. cbn. intros c [? ?]. lia.
      * eapply Forall_impl; [exact Hnew'|]. cbn. intros c [? ?]. lia.
Qed.

Lemma irBlockAddressConst_extends `{Lowering} t old_Func old_Block s :
  extends s (irBlockAddressConst t old_Func old_Block s).1.
Proof.
  destruct s as [gen h]. unfold irBlockAddressConst.
  destruct (function gen (asm_global old_Func)) as [f|err];
    [|apply extends_refl].
  unfold extends.
  cbn [fst snd gs todo next idents funcs blockaddrs new_BasicBlock
       NewBlockAddress].
  do 2 (split; [done|]). split; [lia|]. split.
  - intros r Hr. rewrite !fn_lookup_insert_ne by lia. done.
  - exists [Pos.succ (next h)]. split; [done|].
    constructor; [lia | constructor].
Qed.

(** X9.  Provided the lowering of constant expressions does so, the
    lowering of a constant, whether it succeeds or fails, only extends the
    state: it leaves the globals and the functions as they are, changes no
    object that was allocated before, and only appends to the block
    addresses to fix, each appended one an object allocated by this
    lowering. *)
Theorem irConstant_extends `{Lowering} :
  (∀ t text s, extends s (irConstantExpr t text s).1) →
  ∀ old t s, extends s (irConstant t old s).1.
Proof.
  intros Hexpr.
  assert (Heach : ∀ l,
    Forall (λ e, ∀ s, extends s (irTypeConst irConstant e s).1) l →
    ∀ acc s, extends s (lower_each (irTypeConst irConstant) l acc s).1).
  { induction 1 as [|e l He _ IH]; intros acc s; cbn [lower_each].
    - apply extends_refl.
    - specialize (He s).
      destruct (irTypeConst irConstant e s) as [s1 [c|err]]; [|done].
      eapply extends_trans; [exact He | apply IH]. }
  assert (Hbuild : ∀ c r, (build c r).1 = r.1).
  { by intros c [s' [cs|err]]. }
  fix IH 1. intros old t s.
  destruct old as [lit|lit|lit| | |Fields|Elems|Val|Elems| | |Func Block
                   |text|text]; cbn [irConstant].
  - unfold irBoolConst. destruct t; try apply extends_refl.
    destruct (negb _); [apply extends_refl|].
    destruct (boolLit lit); apply extends_refl.
  - unfold irIntConst. destruct t; apply extends_refl.
  - unfold irFloatConst. destruct t; apply extends_refl.
  - unfold irNullConst. destruct t; apply extends_refl.
  - apply extends_refl.
  - unfold irStructConst. destruct t; try apply extends_refl.
    rewrite Hbuild. apply Heach.
    revert Fields. fix IHl 1. intros [|[ty v] l]; constructor.
    + intros s0. unfold irTypeConst.
      destruct (irType s0.1 ty); [apply IH | apply extends_refl].
    + apply IHl.
  - unfold irArrayConst. destruct t; try apply extends_refl.
    rewrite Hbuild. apply Heach.
    revert Elems. fix IHl 1. intros [|[ty v] l]; constructor.
    + intros s0. unfold irTypeConst.
      destruct (irType s0.1 ty); [apply IH | apply extends_refl].
    + apply IHl.
  - apply extends_refl.
  - unfold irVectorConst. destruct t; try apply extends_refl.
    rewrite Hbuild. apply Heach.
    revert Elems. fix IHl 1. intros [|[ty v] l]; constructor.
    + intros s0. unfold irTypeConst.
      destruct (irType s0.1 ty); [apply IH | apply extends_refl].
    + apply IHl.
  - apply extends_refl.
  - apply extends_refl.
  - pose proof (irBlockAddressConst_extends t Func Block s) as Hb.
    by destruct (irBlockAddressConst t Func Block s) as [s' [c|err]].
  - destruct (gs s.1 !! asm_global text); apply extends_refl.
  - apply Hexpr.
Qed.

(** X10.  When the function of a block address is not known, nothing is
    allocated and nothing is queued.  Two block addresses lowered one after
    the other are two objects with two placeholder blocks, queued in the
    order of their lowering, and the second lowering leaves the first
    constant as it was: no placeholder is shared or overwritten, even for
    the same function and block name. *)
Theorem irBlockAddressConst_fresh `{Lowering} t t' F B F' B' gen h :
  (∀ err, function gen (asm_global F) = Err err →
          irConstant t (ast_BlockAddressConst F B) (gen, h) = ((gen, h), Err err))
  ∧ ∀ s1 c1 s2 c2,
      irBlockAddressConst t F B (gen, h) = (s1, Ok c1) →
      irBlockAddressConst t' F' B' s1 = (s2, Ok c2) →
      c1 ≠ c2
      ∧ todo s2.1 = todo gen ++ [c1; c2]
      ∧ blockaddrs s2.2 c1 = blockaddrs s1.2 c1
      ∧ block_self (BlockAddress_Block (blockaddrs s2.2 c1))
        ≠ block_self (BlockAddress_Block (blockaddrs s2.2 c2))
      ∧ idents s2.2 (block_self (BlockAddress_Block (blockaddrs s2.2 c1)))
        = mkLocalIdent (asm_local B) 0.
Proof.
  split.
  { intros err Herr. cbn [irConstant]. unfold irBlockAddressConst.
    by rewrite Herr. }
  intros [gen1 h1] c1 [gen2 h2] c2. unfold irBlockAddressConst.
  destruct (function gen (asm_global F)) as [f|]; [|done].
  cbn [new_BasicBlock NewBlockAddress]. intros [= <- <- <-].
  cbn [todo gs]. destruct (function _ (asm_global F')) as [f'|]; [|done].
  cbn [next]. intros [= <- <- <-].
  cbn [fst snd todo blockaddrs idents].
  split; [lia|]. split; [by rewrite <-(assoc_L (++))|].
  rewrite fn_lookup_insert, fn_lookup_insert_ne, !fn_lookup_insert by lia.
  cbn [BlockAddress_Block block_self].
  split; [done|]. split; [lia|].
  by rewrite fn_lookup_insert_ne, fn_lookup_insert by lia.
Qed.

Lemma fix_blocks_cases (c : loc) (f : Func) blockName blocks h :
  (∃ pre block post,
     blocks = pre ++ block :: post
     ∧ LocalName (idents h (block_self block)) = blockName
     ∧ Forall (λ b, LocalName (idents h (block_self b)) ≠ blockName) pre)
  ∨ Forall (λ b, LocalName (idents h (block_self b)) ≠ blockName) blocks.
Proof.
  induction blocks as [|b blocks IH]; [right; constructor|].
  destruct (decide (LocalName (idents h (block_self b)) = blockName)) as [Hb|Hb].
  - left. exists [], b, blocks. split; [done|]. split; [done | constructor].
  - destruct IH as [(pre & block & post & -> & Hblock & Hpre)|Hnone].
    + left. exists (b :: pre), block, post.
      split; [done|]. split; [done | by constructor].
    + right. by constructor.
Qed.

Lemma fixBlockAddressConst_frame c h :
  (∀ c', c' ≠ c →
         blockaddrs (fixBlockAddressConst c h).1 c' = blockaddrs h c')
  ∧ idents (fixBlockAddressConst c h).1 = idents h
  ∧ funcs (fixBlockAddressConst c h).1 = funcs h
  ∧ next (fixBlockAddressConst c h).1 = next h.
Proof.
  unfold fixBlockAddressConst.
  destruct (fix_blocks_cases c (funcs h (BlockAddress_Func (blockaddrs h c)))
              (LocalName (idents h (block_self
                 (BlockAddress_Block (blockaddrs h c)))))
              (Blocks (funcs h (BlockAddress_Func (blockaddrs h c)))) h)
    as [(pre & block & post & Hblocks & Hblock & Hpre)|Hnone].
  - rewrite Hblocks, fix_blocks_found by done.
    cbn [fst blockaddrs idents funcs next]. split; [|done].
    intros c' Hc'. by rewrite fn_lookup_insert_ne.
  - by rewrite fix_blocks_missing.
Qed.

(** X11.  [fixBlockAddressConst] succeeds exactly when the function of the
    constant has a block with the name of the block the constant holds.
    Then the block it installs is a block of that function with that name,
    the function of the constant is kept and no other object is touched;
    otherwise the heap is left as it is. *)
Theorem fixBlockAddressConst_resolves c h :
  let f := funcs h (BlockAddress_Func (blockaddrs h c)) in
  let blockName :=
    LocalName (idents h (block_self (BlockAddress_Block (blockaddrs h c)))) in
  let h' := (fixBlockAddressConst c h).1 in
  ((fixBlockAddressConst c h).2 = None ↔
   ∃ block, block ∈ Blocks f
            ∧ LocalName (idents h (block_self block)) = blockName)
  ∧ ((fixBlockAddressConst c h).2 = None →
     BlockAddress_Block (blockaddrs h' c) ∈ Blocks f
     ∧ LocalName (idents h (block_self (BlockAddress_Block (blockaddrs h' c))))
       = blockName
     ∧ BlockAddress_Func (blockaddrs h' c) = BlockAddress_Func (blockaddrs h c))
  ∧ ((fixBlockAddressConst c h).2 ≠ None → h' = h)
  ∧ (∀ c', c' ≠ c → blockaddrs h' c' = blockaddrs h c')
  ∧ idents h' = idents h ∧ funcs h' = funcs h ∧ next h' = next h.
Proof.
  intros f blockName h'. subst h'. unfold fixBlockAddressConst.
  fold f. fold blockName.
  destruct (fix_blocks_cases c f blockName (Blocks f) h)
    as [(pre & block & post & Hblocks & Hblock & Hpre)|Hnone].
  - rewrite Hblocks, fix_blocks_found by done. rewrite <-Hblocks.
    cbn [fst snd blockaddrs idents funcs next]. rewrite fn_lookup_insert.
    cbn [BlockAddress_Block BlockAddress_Func].
    assert (Hin : block ∈ Blocks f).
    { rewrite Hblocks. apply elem_of_app. right. left. }
    split; [split; [eauto | done]|]. split; [done|]. split; [done|].
    split; [|done]. intros c' Hc'. by rewrite fn_lookup_insert_ne.
  - rewrite fix_blocks_missing by done. cbn [fst snd].
    split; [split; [done|]|done].
    intros (block & Hin & Hblock). exfalso.
    by apply (proj1 (Forall_forall _ _) Hnone block Hin).
Qed.

(** X12.  After [fixBlockAddressConst] has succeeded on a constant, running
    it again on that constant succeeds and changes nothing: the block it
    installed has the name it looks for, and it is found again. *)
Theorem fixBlockAddressConst_again c h :
  (fixBlockAddressConst c h).2 = None →
  let h' := (fixBlockAddressConst c h).1 in
  (fixBlockAddressConst c h').2 = None
  ∧ (∀ c', blockaddrs (fixBlockAddressConst c h').1 c' = blockaddrs h' c')
  ∧ idents (fixBlockAddressConst c h').1 = idents h'
  ∧ funcs (fixBlockAddressConst c h').1 = funcs h'
  ∧ next (fixBlockAddressConst c h').1 = next h'.
Proof.
  unfold fixBlockAddressConst at 1 2.
  destruct (fix_blocks_cases c (funcs h (BlockAddress_Func (blockaddrs h c)))
              (LocalName (idents h (block_self
                 (BlockAddress_Block (blockaddrs h c)))))
              (Blocks (funcs h (BlockAddress_Func (blockaddrs h c)))) h)
    as [(pre & block & post & Hblocks & Hblock & Hpre)|Hnone].
  2:{ by rewrite fix_blocks_missing. }
  rewrite Hblocks, fix_blocks_found by done. intros _. cbn [fst].
  unfold fixBlockAddressConst. cbn [blockaddrs idents funcs].
  rewrite fn_lookup_insert. cbn [BlockAddress_Func BlockAddress_Block].
  rewrite Hblocks, Hblock, fix_blocks_found by done.
  cbn [fst snd blockaddrs idents funcs next]. rewrite fn_lookup_insert.
  cbn [BlockAddress_Func]. split; [done|]. split; [|done].
  intros c'. destruct (decide (c = c')) as [<-|Hne].
  - by rewrite !fn_lookup_insert.
  - by rewrite !fn_lookup_insert_ne.
Qed.

Lemma fix_blocks_agree c f blockName blocks h h' :
  idents h = idents h' →
  blockaddrs h c = blockaddrs h' c →
  (fix_blocks c f blockName blocks h).2 = (fix_blocks c f blockName blocks h').2
  ∧ blockaddrs (fix_blocks c f blockName blocks h).1 c
    = blockaddrs (fix_blocks c f blockName blocks h').1 c.
Proof.
  intros Hi Hc. induction blocks as [|b blocks IH]; cbn [fix_blocks].
  - done.
  - rewrite <-Hi. destruct (String.eqb _ _); [|done].
    cbn [fst snd blockaddrs]. by rewrite !fn_lookup_insert, Hc.
Qed.

(** X13.  The order in which two constants are fixed does not matter: each
    one ends, with success or with its error, as it does when it is fixed
    alone, and either order leaves the same block in every constant. *)
Theorem fixBlockAddressConst_commute c1 c2 h :
  c1 ≠ c2 →
  let h12 := (fixBlockAddressConst c2 (fixBlockAddressConst c1 h).1).1 in
  let h21 := (fixBlockAddressConst c1 (fixBlockAddressConst c2 h).1).1 in
  (fixBlockAddressConst c2 (fixBlockAddressConst c1 h).1).2
  = (fixBlockAddressConst c2 h).2
  ∧ (fixBlockAddressConst c1 (fixBlockAddressConst c2 h).1).2
    = (fixBlockAddressConst c1 h).2
  ∧ (∀ c, blockaddrs h12 c = blockaddrs h21 c)
  ∧ idents h12 = idents h21 ∧ funcs h12 = funcs h21 ∧ next h12 = next h21.
Proof.
  intros Hne.
  assert (Hstep : ∀ c c' h0, c ≠ c' →
    (fixBlockAddressConst c' (fixBlockAddressConst c h0).1).2
    = (fixBlockAddressConst c' h0).2
    ∧ blockaddrs (fixBlockAddressConst c' (fixBlockAddressConst c h0).1).1 c'
      = blockaddrs (fixBlockAddressConst c' h0).1 c').
  { intros c c' h0 Hc.
    destruct (fixBlockAddressConst_frame c h0) as (Hother & Hi & Hf & _).
    unfold fixBlockAddressConst at 1 3 4 6.
    rewrite Hi, Hf, (Hother c') by done.
    apply fix_blocks_agree; [done | by apply Hother]. }
  destruct (Hstep c1 c2 h Hne) as [He2 Hb2].
  destruct (Hstep c2 c1 h (not_eq_sym Hne)) as [He1 Hb1].
  destruct (fixBlockAddressConst_frame c1 h) as (Ho1 & Hi1 & Hf1 & Hn1).
  destruct (fixBlockAddressConst_frame c2 h) as (Ho2 & Hi2 & Hf2 & Hn2).
  destruct (fixBlockAddressConst_frame c2 (fixBlockAddressConst c1 h).1)
    as (Ho12 & Hi12 & Hf12 & Hn12).
  destruct (fixBlockAddressConst_frame c1 (fixBlockAddressConst c2 h).1)
    as (Ho21 & Hi21 & Hf21 & Hn21).
  cbn zeta. split; [done|]. split; [done|]. split.
  - intros c. destruct (decide (c = c2)) as [->|Hc2].
    + rewrite Hb2. by rewrite Ho21 by done.
    + rewrite Ho12 by done. destruct (decide (c = c1)) as [->|Hc1].
      * by rewrite Hb1.
      * by rewrite Ho21, Ho1, Ho2 by done.
  - split; [congruence|]. split; congruence.
Qed.

(** X14.  When a constant without constant expressions lowers with
    success, the block addresses to fix have grown by exactly the number of
    block-address nodes of the constant: each one is queued once, wherever
    it stands in the aggregates, and nothing else is queued. *)
Theorem irConstant_queues_block_addresses `{Lowering} old :
  ∀ t s s' c,
    expression_free old = true →
    irConstant t old s = (s', Ok c) →
    length (todo s'.1) = (length (todo s.1) + block_addresses old)%nat.
Proof.
  assert (Hbuild : ∀ ctor r s' c,
    build ctor r = (s', Ok c) → ∃ cs, r = (s', Ok cs)).
  { intros ctor [s0 [cs|err]] s' c; cbn [build]; [|done].
    intros [= <- _]. eauto. }
  assert (Hagg : ∀ (l : list ast_TypeConst) s s' cs,
    Forall (λ e, expression_free (TypeConst_Val e) = true →
                 ∀ s s' c, irTypeConst irConstant e s = (s', Ok c) →
                 length (todo s'.1)
                 = (length (todo s.1) + block_addresses (TypeConst_Val e))%nat)
      l →
    (fix go (l : list ast_TypeConst) : bool :=
       match l with
       | [] => true
       | mk_ast_TypeConst _ v :: l' => expression_free v && go l'
       end) l = true →
    lower_each (irTypeConst irConstant) l [] s = (s', Ok cs) →
    length (todo s'.1)
    = (length (todo s.1)
       + (fix go (l : list ast_TypeConst) : nat :=
            match l with
            | [] => 0
            | mk_ast_TypeConst _ v :: l' => block_addresses v + go l'
            end) l)%nat).
  { intros l s s' cs Hall Hfree Hrun.
    pose proof (lower_each_lowered (irTypeConst irConstant) l [] s) as Hl.
    rewrite Hrun in Hl. destruct Hl as (cs' & _ & Hl). clear Hrun.
    induction Hl as [s|s [ty v] s1 c l cs' s' He Hl IHl]; [lia|].
    apply andb_true_iff in Hfree as [Hv Hfree].
    apply Forall_cons in Hall as [Hone Hall].
    rewrite IHl, (Hone Hv _ _ _ He) by done. cbn [TypeConst_Val]. lia. }
  assert (Hone : ∀ ty v,
    (∀ t s s' c, expression_free v = true → irConstant t v s = (s', Ok c) →
                 length (todo s'.1)
                 = (length (todo s.1) + block_addresses v)%nat) →
    expression_free (TypeConst_Val (mk_ast_TypeConst ty v)) = true →
    ∀ s s' c, irTypeConst irConstant (mk_ast_TypeConst ty v) s = (s', Ok c) →
    length (todo s'.1)
    = (length (todo s.1)
       + block_addresses (TypeConst_Val (mk_ast_TypeConst ty v)))%nat).
  { intros ty v Hv Hfree s s' c. unfold irTypeConst.
    destruct (irType s.1 ty); [|done]. by apply Hv. }
  revert old. fix IH 1. intros old t s s' c Hfree Hrun.
  destruct old as [lit|lit|lit| | |Fields|Elems|Val|Elems| | |Func Block
                   |text|text]; cbn [irConstant block_addresses] in *.
  - unfold irBoolConst in Hrun. destruct t; try done.
    destruct (negb _); [done|].
    destruct (boolLit lit); injection Hrun as <- _; lia.
  - unfold irIntConst in Hrun. destruct t; try done.
    injection Hrun as <- _. lia.
  - unfold irFloatConst in Hrun. destruct t; try done.
    injection Hrun as <- _. lia.
  - unfold irNullConst in Hrun. destruct t; try done.
    injection Hrun as <- _. lia.
  - injection Hrun as <- _. lia.
  - unfold irStructConst in Hrun. destruct t; try done.
    apply Hbuild in Hrun as [cs Hrun].
    apply (Hagg Fields s s' cs); [|exact Hfree|exact Hrun].
    clear Hfree Hrun. revert Fields. fix IHl 1.
    intros [|[ty v] l]; constructor; [apply Hone, IH | apply IHl].
  - unfold irArrayConst in Hrun. destruct t; try done.
    apply Hbuild in Hrun as [cs Hrun].
    apply (Hagg Elems s s' cs); [|exact Hfree|exact Hrun].
    clear Hfree Hrun. revert Elems. fix IHl 1.
    intros [|[ty v] l]; constructor; [apply Hone, IH | apply IHl].
  - injection Hrun as <- _. lia.
  - unfold irVectorConst in Hrun. destruct t; try done.
    apply Hbuild in Hrun as [cs Hrun].
    apply (Hagg Elems s s' cs); [|exact Hfree|exact Hrun].
    clear Hfree Hrun. revert Elems. fix IHl 1.
    intros [|[ty v] l]; constructor; [apply Hone, IH | apply IHl].
  - injection Hrun as <- _. lia.
  - injection Hrun as <- _. lia.
  - destruct s as [gen h]. unfold irBlockAddressConst in Hrun.
    destruct (function gen (asm_global Func)); [|done].
    cbn in Hrun. injection Hrun as <- _. cbn [fst todo].
    rewrite length_app. cbn [length]. lia.
  - destruct (gs s.1 !! asm_global text); [|done]. injection Hrun as <- _. lia.
  - done.
Qed.

(** ** The further properties on the sample values *)

(** X1 on the sample function with the stale ID on the add. *)
Lemma AssignIDs_preserves_sample :
  (AssignIDs sample_func stale_store).1 5%positive = stale_store 5%positive
  ∧ LocalName ((AssignIDs sample_func stale_store).1 7%positive) = "exit".
Proof.
  destruct (AssignIDs_preserves sample_func stale_store) as (Hname & _ & Hfr).
  split; [|exact (Hname 7%positive)].
  apply Hfr. apply (bool_decide_unpack _). vm_compute. exact I.
Defined.

(** X2 on the sample function with the stale ID on the add: the parameter
    and the block before it are numbered 0 and 1, the add keeps 7. *)
Lemma AssignIDs_failure_partial_sample :
  anonymous_IDs (AssignIDs sample_func stale_store).1 [1; 2; 3]%positive
  = [0; 1]
  ∧ ID ((AssignIDs sample_func stale_store).1 4%positive) = 7.
Proof.
  destruct (AssignIDs_failure_partial sample_func stale_store
              [1; 2; 3]%positive 4%positive [6; 7]%positive)
    as (_ & Hids & Hn & _).
  - done.
  - reflexivity.
  - reflexivity.
  - apply (bool_decide_unpack _). vm_compute. exact I.
  - reflexivity.
  - by vm_compute.
  - by vm_compute.
  - apply (bool_decide_unpack _). vm_compute. exact I.
  - by vm_compute.
  - split; [exact Hids | by rewrite Hn].
Defined.

(** X3 on the declaration. *)
Lemma LLString_effect_sample :
  (LLString declared_func stale_block_store).1 = stale_block_store.
Proof.
  exact (proj1 (proj2 (LLString_effect declared_func stale_block_store))
           eq_refl).
Defined.

(** X4 on the function of one block of a void call. *)
Lemma LLString_again_sample :
  ∃ text', (LLString void_call_func
              (LLString void_call_func fresh_store).1).2 = Returns text'.
Proof.
  refine (proj1 (LLString_again void_call_func fresh_store
    ("define void @f(i32 %0) {" +:+ LF +:+ "1:" +:+ LF +:+ "}") _ _)).
  - apply (bool_decide_unpack _). vm_compute. exact I.
  - reflexivity.
Defined.

(** X5 on the declaration, whose parameter carries the ID 3: it is printed
    as it is. *)
Lemma LLString_declare_sample :
  LLString declared_func stale_block_store
  = (stale_block_store, Returns "declare void @f(i32 %3)").
Proof.
  rewrite (LLString_declare declared_func stale_block_store eq_refl).
  reflexivity.
Defined.

(** X7 on the generator that knows [@f]. *)
Lemma irConstant_global_sample :
  irConstant (IntType 8) (ast_GlobalIdent "@f") (sample_generator, sample_heap)
  = ((sample_generator, sample_heap), Ok (ConstGlobal 10))
  ∧ irConstant (IntType 8) (ast_GlobalIdent "@g")
      (sample_generator, sample_heap)
    = ((sample_generator, sample_heap), Err (ErrLocateGlobal "g")).
Proof.
  destruct (irConstant_global (IntType 8) "@f" sample_generator sample_heap)
    as (Hfound & _).
  destruct (irConstant_global (IntType 8) "@g" sample_generator sample_heap)
    as (_ & Hmissing & _).
  split; [apply Hfound; reflexivity | apply Hmissing; reflexivity].
Defined.

(** X8 on the struct of two fields against a struct type of one field of
    another type: the lowering succeeds with the two constants. *)
Lemma irConstant_aggregate_sample :
  aggregate_of (StructType [IntType 64]) sample_struct
  = Some ([mk_ast_TypeConst "i32" (ast_IntConst "1");
           mk_ast_TypeConst "i32" (ast_IntConst "1")],
          ConstStruct (StructType [IntType 64]))
  ∧ ∃ cs,
      ConstStruct (StructType [IntType 64]) [ConstInt 32 1; ConstInt 32 1]
      = ConstStruct (StructType [IntType 64]) cs
      ∧ length cs = 2%nat
      ∧ lowered (irTypeConst irConstant) (sample_generator, sample_heap)
          [mk_ast_TypeConst "i32" (ast_IntConst "1");
           mk_ast_TypeConst "i32" (ast_IntConst "1")] cs
          (sample_generator, sample_heap).
Proof.
  split; [reflexivity|].
  exact (irConstant_aggregate (StructType [IntType 64]) sample_struct _ _
           (sample_generator, sample_heap) eq_refl).
Defined.

(** X9 on a struct that holds a block address. *)
Lemma irConstant_extends_sample :
  extends (sample_generator, sample_heap)
    (irConstant (StructType [])
       (ast_StructConst
          [mk_ast_TypeConst "i32" (ast_BlockAddressConst "@f" "%loop")])
       (sample_generator, sample_heap)).1.
Proof.
  apply irConstant_extends. intros t text s. apply extends_refl.
Defined.

(** X10 on the block addresses of [%loop] and [%nope]. *)
Lemma irBlockAddressConst_fresh_sample :
  todo sample_lowered.1 = [101; 103]%positive
  ∧ block_self (BlockAddress_Block (blockaddrs sample_lowered.2 101%positive))
    ≠ block_self (BlockAddress_Block (blockaddrs sample_lowered.2 103%positive)).
Proof.
  destruct (irBlockAddressConst_fresh (IntType 8) (IntType 8) "@f" "%loop"
              "@f" "%nope" sample_generator sample_heap) as [_ Hfresh].
  destruct (Hfresh _ 101%positive sample_lowered 103%positive eq_refl eq_refl)
    as (_ & Htodo & _ & Hblocks & _).
  split; [exact Htodo | exact Hblocks].
Defined.

(** X11 on the two constants: [%loop] is resolved, [%nope] is not. *)
Lemma fixBlockAddressConst_resolves_sample :
  (fixBlockAddressConst 101 sample_lowered.2).2 = None
  ∧ (fixBlockAddressConst 103 sample_lowered.2).2 ≠ None.
Proof.
  destruct (fixBlockAddressConst_resolves 101 sample_lowered.2) as [Hiff _].
  destruct (fixBlockAddressConst_resolves 103 sample_lowered.2) as [Hiff' _].
  split.
  - apply Hiff. exists (mkBlock 21 [] (Some TermNoValue)).
    split; [|reflexivity].
    change (mkBlock 21 [] (Some TermNoValue)
            ∈ [mkBlock 20 [] (Some TermNoValue);
               mkBlock 21 [] (Some TermNoValue)]).
    right. left.
  - intros Hok. apply Hiff' in Hok as (block & Hin & Hname).
    change (block ∈ [mkBlock 20 [] (Some TermNoValue);
                     mkBlock 21 [] (Some TermNoValue)]) in Hin.
    rewrite !elem_of_cons, elem_of_nil in Hin.
    destruct Hin as [->|[->|[]]]; by vm_compute in Hname.
Defined.

(** X12 on the resolved constant. *)
Lemma fixBlockAddressConst_again_sample :
  (fixBlockAddressConst 101
     (fixBlockAddressConst 101 sample_lowered.2).1).2 = None.
Proof.
  exact (proj1 (fixBlockAddressConst_again 101 sample_lowered.2 eq_refl)).
Defined.

(** X13 on the two constants. *)
Lemma fixBlockAddressConst_commute_sample :
  (fixBlockAddressConst 103 (fixBlockAddressConst 101 sample_lowered.2).1).2
  = (fixBlockAddressConst 103 sample_lowered.2).2
  ∧ blockaddrs
      (fixBlockAddressConst 103
         (fixBlockAddressConst 101 sample_lowered.2).1).1 101%positive
    = blockaddrs
        (fixBlockAddressConst 101
           (fixBlockAddressConst 103 sample_lowered.2).1).1 101%positive.
Proof.
  assert (Hne : (101 ≠ 103)%positive) by done.
  destruct (fixBlockAddressConst_commute 101 103 sample_lowered.2 Hne)
    as (Herr & _ & Hblocks & _).
  split; [exact Herr | exact (Hblocks 101%positive)].
Defined.

(** X14 on the struct of two block addresses. *)
Lemma irConstant_queues_block_addresses_sample :
  expression_free sample_addresses = true
  ∧ length (todo (irConstant (StructType []) sample_addresses
                    (sample_generator, sample_heap)).1.1) = 2%nat.
Proof.
  split; [reflexivity|].
  refine (irConstant_queues_block_addresses sample_addresses (StructType [])
            (sample_generator, sample_heap) _
            (ConstStruct (StructType [])
               [ConstBlockAddress 101; ConstBlockAddress 103]) _ _);
    reflexivity.
Defined.
